(** * Recurrent actor-critic: network, rollout collector and loss composer

    A shallow embedding of [actor_critic_14.py].  Tensors of floats are
    idealised: a scalar is an element of a type carrying the arithmetic the
    program uses ([Scalar]); the instance over the real numbers gives the
    forward values, the instance over dual numbers (value, tangent) gives
    the derivative that autograd propagates, with [detach] cutting it. *)

From Stdlib Require Import List Bool Arith ZArith Lia Reals Lra.
Import ListNotations.

Set Implicit Arguments.

(** ** Scalars *)

Class Scalar (A : Type) := {
  szero : A;
  sone : A;
  sadd : A -> A -> A;
  ssub : A -> A -> A;
  smul : A -> A -> A;
  sdiv : A -> A -> A;
  sneg : A -> A;
  sexp : A -> A;
  sln : A -> A;
  smax : A -> A -> A;
  smin : A -> A -> A;
  sleb : A -> A -> bool;
  of_nat : nat -> A;
  (* [Tensor.detach]: same value, cut from the autograd graph *)
  detach : A -> A;
  (* conversion to an integer type: the fractional part is dropped *)
  trunc : A -> Z
}.

Definition Rleb (x y : R) : bool := if Rle_dec x y then true else false.

Definition Rtrunc (x : R) : Z :=
  if Rle_dec 0 x then Int_part x else (- Int_part (- x))%Z.

#[export] Instance R_Scalar : Scalar R := {
  szero := 0%R;
  sone := 1%R;
  sadd := Rplus;
  ssub := Rminus;
  smul := Rmult;
  sdiv := Rdiv;
  sneg := Ropp;
  sexp := exp;
  sln := ln;
  smax := Rmax;
  smin := Rmin;
  sleb := Rleb;
  of_nat := INR;
  detach := fun x => x;
  trunc := Rtrunc
}.

(** A dual number: the value of a tensor entry and its derivative along one
    direction of the parameter space (forward-mode view of autograd). *)
Definition Dual : Type := (R * R)%type.

Definition primal (d : Dual) : R := fst d.
Definition tangent (d : Dual) : R := snd d.

#[export] Instance Dual_Scalar : Scalar Dual := {
  szero := (0, 0)%R;
  sone := (1, 0)%R;
  sadd := fun a b => (fst a + fst b, snd a + snd b)%R;
  ssub := fun a b => (fst a - fst b, snd a - snd b)%R;
  smul := fun a b => (fst a * fst b, fst a * snd b + fst b * snd a)%R;
  sdiv := fun a b =>
    (fst a / fst b, (snd a * fst b - fst a * snd b) / (fst b * fst b))%R;
  sneg := fun a => (- fst a, - snd a)%R;
  sexp := fun a => (exp (fst a), exp (fst a) * snd a)%R;
  sln := fun a => (ln (fst a), snd a / fst a)%R;
  smax := fun a b => if Rle_dec (fst a) (fst b) then b else a;
  smin := fun a b => if Rle_dec (fst a) (fst b) then a else b;
  sleb := fun a b => Rleb (fst a) (fst b);
  of_nat := fun n => (INR n, 0%R);
  detach := fun a => (fst a, 0%R);
  trunc := fun a => Rtrunc (fst a)
}.

(** ** Exceptions and the state-and-exception monad *)

Inductive exn : Type :=
| AssertionError
| RuntimeError
| AttributeError.

Inductive result (X : Type) : Type :=
| Ok (x : X)
| Raise (e : exn).

Arguments Ok {X} x.
Arguments Raise {X} e.

(** A computation over a mutable state [S]; the state reached when an
    exception is raised is kept, as it is for a Python object. *)
Definition M (S X : Type) : Type := S -> result X * S.

Definition ret {S X : Type} (x : X) : M S X := fun s => (Ok x, s).

Definition raise {S X : Type} (e : exn) : M S X := fun s => (Raise e, s).

Definition bind {S X Y : Type} (c : M S X) (k : X -> M S Y) : M S Y :=
  fun s =>
    match c s with
    | (Ok x, s') => k x s'
    | (Raise e, s') => (Raise e, s')
    end.

Definition get {S : Type} : M S S := fun s => (Ok s, s).

Definition put {S : Type} (s : S) : M S unit := fun _ => (Ok tt, s).

Definition assert {S : Type} (b : bool) : M S unit :=
  if b then ret tt else raise AssertionError.

Declare Scope rollout_scope.
Delimit Scope rollout_scope with rollout.

Notation "x <- c ;; k" := (bind c (fun x => k))
  (at level 61, c at next level, right associativity) : rollout_scope.
Notation "c ;;; k" := (bind c (fun _ => k))
  (at level 61, right associativity) : rollout_scope.

(** ** Tensors *)

(** A tensor of any rank: its shape and its entries in row-major order. *)
Record Tensor (X : Type) : Type := mkTensor {
  shape : list nat;
  data : list X
}.

Definition ndim {X : Type} (t : Tensor X) : nat := length (shape t).

Definition numel (s : list nat) : nat := fold_right Nat.mul 1 s.

Definition shape_eqb (s1 s2 : list nat) : bool :=
  if list_eq_dec Nat.eq_dec s1 s2 then true else false.

(** [n] consecutive chunks of [k] entries. *)
Definition chunks {X : Type} (k n : nat) (l : list X) : list (list X) :=
  map (fun i => firstn k (skipn (i * k) l)) (seq 0 n).

(** Nested views used once the rank is known. *)
Abbreviation matrix X := (list (list X)) (only parsing).
Abbreviation image X := (list (list (list X))) (only parsing).

Definition view4 {X : Type} (n c h w : nat) (d : list X) : list (image X) :=
  map (fun img => map (chunks w h) (chunks (h * w) c img))
      (chunks (c * h * w) n d).

Fixpoint zip_with {X Y Z : Type} (f : X -> Y -> Z) (l1 : list X) (l2 : list Y)
  : list Z :=
  match l1, l2 with
  | x :: l1', y :: l2' => f x y :: zip_with f l1' l2'
  | _, _ => []
  end.

(** [torch.cat(ts, dim=1)] on a list of tensors of rank at least 2, each
    given by its rows: the rows of the same index are appended. *)
Fixpoint cat_dim1 {X : Type} (ts : list (list (list X))) : list (list X) :=
  match ts with
  | [] => []
  | [t] => t
  | t :: ts' => zip_with (@app X) t (cat_dim1 ts')
  end.

(** [x[:, :-1]]: every row without its last entry. *)
Definition drop_last_col {X : Type} (t : list (list X)) : list (list X) :=
  map (@removelast X) t.

Section Network.

Context {A : Type} `{Scalar A}.

Definition sum_list (l : list A) : A := fold_right sadd szero l.

Definition sum_upto (n : nat) (f : nat -> A) : A := sum_list (map f (seq 0 n)).

Definition fold1 (f : A -> A -> A) (l : list A) : option A :=
  match l with
  | [] => None
  | a :: r => Some (fold_left f r a)
  end.

(** [t.min()] and [t.max()] over all the entries; torch refuses an empty
    tensor. *)
Definition tmin (t : Tensor A) : option A := fold1 smin (data t).
Definition tmax (t : Tensor A) : option A := fold1 smax (data t).

Definition relu (x : A) : A := smax x szero.

Definition relu_image (x : image A) : image A := map (map (map relu)) x.

(** *** nn.Conv2d *)

Record Conv2d : Type := mkConv2d {
  in_channels : nat;
  out_channels : nat;
  kernel_size : nat;
  stride : nat;
  padding : nat;
  conv_weight : nat -> nat -> nat -> nat -> A;
  conv_bias : nat -> A
}.

Definition pixel (x : image A) (c r q : nat) : A :=
  nth q (nth r (nth c x []) []) szero.

(** The input seen through its zero padding of width [p]. *)
Definition padded (p : nat) (x : image A) (c r q : nat) : A :=
  if (p <=? r) && (p <=? q) then pixel x c (r - p) (q - p) else szero.

Definition conv_out_size (h k s p : nat) : nat := (h + 2 * p - k) / s + 1.

Definition height (x : image A) : nat := length (nth 0 x []).
Definition width (x : image A) : nat := length (nth 0 (nth 0 x []) []).

Definition conv2d (cv : Conv2d) (x : image A) : image A :=
  let k := kernel_size cv in
  let s := stride cv in
  let p := padding cv in
  map (fun o =>
    map (fun i =>
      map (fun j =>
        sadd (conv_bias cv o)
          (sum_upto (in_channels cv) (fun c =>
             sum_upto k (fun di =>
               sum_upto k (fun dj =>
                 smul (conv_weight cv o c di dj)
                      (padded p x c (i * s + di) (j * s + dj)))))))
        (seq 0 (conv_out_size (width x) k s p)))
      (seq 0 (conv_out_size (height x) k s p)))
    (seq 0 (out_channels cv)).

(** *** nn.MaxPool2d *)

Record MaxPool2d : Type := mkMaxPool2d {
  pool_kernel : nat;
  pool_stride : nat
}.

Definition pool_out_size (h k s : nat) : nat :=
  if h <? k then 0 else (h - k) / s + 1.

Definition window (k : nat) (f : nat -> nat -> A) : list A :=
  flat_map (fun di => map (fun dj => f di dj) (seq 0 k)) (seq 0 k).

Definition max_list (l : list A) : A :=
  match l with
  | [] => szero
  | a :: r => fold_left smax r a
  end.

Definition maxpool_channel (mp : MaxPool2d) (ch : matrix A) : matrix A :=
  let k := pool_kernel mp in
  let s := pool_stride mp in
  map (fun i =>
    map (fun j =>
      max_list (window k (fun di dj =>
        nth (j * s + dj) (nth (i * s + di) ch []) szero)))
      (seq 0 (pool_out_size (length (nth 0 ch [])) k s)))
    (seq 0 (pool_out_size (length ch) k s)).

Definition maxpool2d (mp : MaxPool2d) (x : image A) : image A :=
  map (maxpool_channel mp) x.

(** *** nn.Linear *)

Record Linear : Type := mkLinear {
  in_features : nat;
  out_features : nat;
  lin_weight : nat -> nat -> A;
  lin_bias : nat -> A
}.

Definition dot (n : nat) (w : nat -> A) (x : list A) : A :=
  sum_upto n (fun i => smul (w i) (nth i x szero)).

Definition linear (l : Linear) (x : list A) : list A :=
  map (fun j => sadd (dot (in_features l) (lin_weight l j) x) (lin_bias l j))
      (seq 0 (out_features l)).

(** *** nn.LSTMCell *)

Record LSTMCell : Type := mkLSTMCell {
  input_size : nat;
  hidden_size : nat;
  weight_ih : nat -> nat -> A;
  weight_hh : nat -> nat -> A;
  bias_ih : nat -> A;
  bias_hh : nat -> A
}.

Definition sigmoid (z : A) : A := sdiv sone (sadd sone (sexp (sneg z))).

Definition stanh (z : A) : A :=
  sdiv (ssub (sexp z) (sexp (sneg z))) (sadd (sexp z) (sexp (sneg z))).

Definition gate (cell : LSTMCell) (x h : list A) (g : nat) : A :=
  sadd (sadd (dot (input_size cell) (weight_ih cell g) x) (bias_ih cell g))
       (sadd (dot (hidden_size cell) (weight_hh cell g) h) (bias_hh cell g)).

(** One row of the batch.  The four gates are the chunks of the affine
    image in the order input, forget, cell, output. *)
Definition lstm_row (cell : LSTMCell) (x : list A) (hc : list A * list A)
  : list A * list A :=
  let n := hidden_size cell in
  let g := gate cell x (fst hc) in
  let c' := map (fun k =>
              sadd (smul (sigmoid (g (n + k))) (nth k (snd hc) szero))
                   (smul (sigmoid (g k)) (stanh (g (2 * n + k)))))
            (seq 0 n) in
  let h' := map (fun k =>
              smul (sigmoid (g (3 * n + k))) (stanh (nth k c' szero)))
            (seq 0 n) in
  (h', c').

Definition has_rows {X : Type} (n k : nat) (m : matrix X) : bool :=
  (length m =? n) && forallb (fun r => length r =? k) m.

(** The call [cell(x, (hx, cx))] on a batch: an [AttributeError] is raised
    on a state that is [None], and a [RuntimeError] when the batch sizes or
    the widths do not agree. *)
Definition lstm_cell (cell : LSTMCell) (x : matrix A)
    (ohx ocx : option (matrix A)) : result (matrix A * matrix A) :=
  match ohx, ocx with
  | Some h, Some c =>
    if has_rows (length x) (input_size cell) x
       && has_rows (length x) (hidden_size cell) h
       && has_rows (length x) (hidden_size cell) c
    then
      let rows := zip_with (lstm_row cell) x (combine h c) in
      Ok (map fst rows, map snd rows)
    else Raise RuntimeError
  | _, _ => Raise AttributeError
  end.


(** *** The actor-critic module *)

(** What [state_dict] holds. *)
Record Weights : Type := mkWeights {
  conv1_weight : nat -> nat -> nat -> nat -> A;
  conv1_bias : nat -> A;
  conv2_weight : nat -> nat -> nat -> nat -> A;
  conv2_bias : nat -> A;
  conv3_weight : nat -> nat -> nat -> nat -> A;
  conv3_bias : nat -> A;
  conv4_weight : nat -> nat -> nat -> nat -> A;
  conv4_bias : nat -> A;
  lstm_weight_ih : nat -> nat -> A;
  lstm_weight_hh : nat -> nat -> A;
  lstm_bias_ih : nat -> A;
  lstm_bias_hh : nat -> A;
  critic_weight : nat -> nat -> A;
  critic_bias : nat -> A;
  actor0_weight : nat -> nat -> A;
  actor0_bias : nat -> A;
  actor1_weight : nat -> nat -> A;
  actor1_bias : nat -> A
}.

Record ActorCritic : Type := mkActorCritic {
  weights : Weights;
  hx : option (matrix A);
  cx : option (matrix A)
}.

Definition conv1 (m : ActorCritic) : Conv2d :=
  mkConv2d 3 32 3 1 1 (conv1_weight (weights m)) (conv1_bias (weights m)).
Definition maxp1 : MaxPool2d := mkMaxPool2d 2 2.
Definition conv2 (m : ActorCritic) : Conv2d :=
  mkConv2d 32 32 3 1 1 (conv2_weight (weights m)) (conv2_bias (weights m)).
Definition maxp2 : MaxPool2d := mkMaxPool2d 2 2.
Definition conv3 (m : ActorCritic) : Conv2d :=
  mkConv2d 32 64 3 1 1 (conv3_weight (weights m)) (conv3_bias (weights m)).
Definition maxp3 : MaxPool2d := mkMaxPool2d 2 2.
Definition conv4 (m : ActorCritic) : Conv2d :=
  mkConv2d 64 64 3 1 1 (conv4_weight (weights m)) (conv4_bias (weights m)).
Definition maxp4 : MaxPool2d := mkMaxPool2d 2 2.

Definition lstm_dim : nat := 512.

Definition lstm (m : ActorCritic) : LSTMCell :=
  mkLSTMCell 1024 lstm_dim
    (lstm_weight_ih (weights m)) (lstm_weight_hh (weights m))
    (lstm_bias_ih (weights m)) (lstm_bias_hh (weights m)).

Definition critic_linear (m : ActorCritic) : Linear :=
  mkLinear 512 1 (critic_weight (weights m)) (critic_bias (weights m)).
Definition actor_linear0 (m : ActorCritic) : Linear :=
  mkLinear 512 7 (actor0_weight (weights m)) (actor0_bias (weights m)).
Definition actor_linear1 (m : ActorCritic) : Linear :=
  mkLinear 512 7 (actor1_weight (weights m)) (actor1_bias (weights m)).

(** [__init__]: the layers above around the given parameters, no hidden
    state. *)
Definition init (w : Weights) : ActorCritic := mkActorCritic w None None.

Record ActorCriticOutput : Type := mkActorCriticOutput {
  logits_actions0 : list (matrix A);
  logits_actions1 : list (matrix A);
  means_values : list (matrix A)
}.

Definition clear : M ActorCritic unit :=
  fun m => (Ok tt, mkActorCritic (weights m) None None).

Definition zeros (n k : nat) : matrix A := repeat (repeat szero k) n.

Definition reset (n : nat) : M ActorCritic unit :=
  fun m => (Ok tt, mkActorCritic (weights m)
                     (Some (zeros n lstm_dim)) (Some (zeros n lstm_dim))).

(** [x.mul(2).sub(1)] *)
Definition rescale (t : Tensor A) : Tensor A :=
  mkTensor (shape t)
    (map (fun v => ssub (smul v (of_nat 2)) sone) (data t)).

(** A tensor of rank 4 as a batch of images. *)
Definition batch_of (t : Tensor A) : list (image A) :=
  view4 (nth 0 (shape t) 0) (nth 1 (shape t) 0) (nth 2 (shape t) 0)
        (nth 3 (shape t) 0) (data t).

(** One line [x = F.relu(self.maxp(self.conv(x)))]. *)
Definition stage (cv : Conv2d) (mp : MaxPool2d) (x : list (image A))
  : list (image A) :=
  map (fun img => relu_image (maxpool2d mp (conv2d cv img))) x.

(** [torch.flatten(x, start_dim=1)] *)
Definition flatten1 (x : list (image A)) : matrix A :=
  map (fun img => concat (concat img)) x.

(** Lines 78 to 84 of [forward]. *)
Definition features (m : ActorCritic) (inputs : Tensor A) : matrix A :=
  let x := inputs in
  let x := batch_of (rescale x) in
  let x := stage (conv1 m) maxp1 x in
  let x := stage (conv2 m) maxp2 x in
  let x := stage (conv3 m) maxp3 x in
  let x := stage (conv4 m) maxp4 x in
  flatten1 x.

Definition reduce (o : option A) : M ActorCritic A :=
  match o with
  | Some v => ret v
  | None => raise RuntimeError
  end.

Definition forward (inputs : Tensor A) : M ActorCritic ActorCriticOutput :=
  (assert ((ndim inputs =? 4) && shape_eqb (tl (shape inputs)) [3; 64; 64]) ;;;
   lo <- reduce (tmin inputs) ;;
   hi <- reduce (tmax inputs) ;;
   assert (sleb szero lo && sleb lo sone && sleb szero hi && sleb hi sone) ;;;
   m <- get ;;
   let x := features m inputs in
   match lstm_cell (lstm m) x (hx m) (cx m) with
   | Raise e => raise e
   | Ok (h, c) =>
     put (mkActorCritic (weights m) (Some h) (Some c)) ;;;
     ret (mkActorCriticOutput
            (map (fun r => [linear (actor_linear0 m) r]) h)
            (map (fun r => [linear (actor_linear1 m) r]) h)
            (map (fun r => [linear (critic_linear m) r]) h))
   end)%rollout.

End Network.

Arguments Conv2d : clear implicits.
Arguments Linear : clear implicits.
Arguments LSTMCell : clear implicits.
Arguments Weights : clear implicits.
Arguments ActorCritic : clear implicits.
Arguments ActorCriticOutput : clear implicits.

(** ** The rollout collector *)

Section Rollout.

Context {A : Type} `{Scalar A}.

(** What one call of [envs.step] returns. *)
Record StepResult : Type := mkStepResult {
  obs0 : Tensor A;
  obs1 : Tensor A;
  step_rewards : list A;
  dones : list bool
}.

(** The environment batch [ParallelEnv], an external collaborator: its
    state is of type [E], [n] is its batch size. *)
Record Env (E : Type) : Type := mkEnv {
  env_n : E -> nat;
  env_reset : E -> E;
  env_step : E -> matrix nat -> StepResult * E
}.

Record RolloutOutput : Type := mkRolloutOutput {
  observations : Tensor Z;
  actions0 : matrix nat;
  actions1 : matrix nat;
  rollout_logits_actions0 : list (matrix A);
  rollout_logits_actions1 : list (matrix A);
  values : matrix A;
  rewards : matrix A;
  ends : matrix bool
}.

(** The lists that [batch_rollout] appends to. *)
Record Records : Type := mkRecords {
  all_observations0 : list (Tensor A);
  all_actions0 : list (matrix nat);
  all_logits_actions0 : list (list (matrix A));
  all_values0 : list (list (matrix A));
  all_actions1 : list (matrix nat);
  all_logits_actions1 : list (list (matrix A));
  all_rewards : list (matrix A);
  all_ends : list (matrix bool)
}.

Definition no_records : Records := mkRecords [] [] [] [] [] [] [] [].

Variables E G : Type.

Variable envs_api : Env E.

(** One draw from [Categorical(logits=l)]; [G] is the state of the random
    generator. *)
Variable draw : G -> list A -> nat * G.

Record World : Type := mkWorld {
  actor0 : ActorCritic A;
  envs : E;
  generator : G
}.

Definition on_actor {X : Type} (c : M (ActorCritic A) X) : M World X :=
  fun w =>
    let (r, m) := c (actor0 w) in (r, mkWorld m (envs w) (generator w)).

Definition envs_n : M World nat :=
  fun w => (Ok (env_n envs_api (envs w)), w).

Definition envs_reset : M World unit :=
  fun w => (Ok tt, mkWorld (actor0 w) (env_reset envs_api (envs w)) (generator w)).

Definition envs_step (actions : matrix nat) : M World StepResult :=
  fun w =>
    let (r, e) := env_step envs_api (envs w) actions in
    (Ok r, mkWorld (actor0 w) e (generator w)).

Fixpoint draws {X Y : Type} (f : G -> X -> Y * G) (l : list X) (g : G)
  : list Y * G :=
  match l with
  | [] => ([], g)
  | x :: l' =>
    let (y, g1) := f g x in
    let (ys, g2) := draws f l' g1 in
    (y :: ys, g2)
  end.

(** [Categorical(logits=l).sample()] for logits of shape (N,1,7): one draw
    for every row of every batch entry, shape (N,1). *)
Definition sample (logits : list (matrix A)) : M World (matrix nat) :=
  fun w =>
    let (a, g) := draws (fun g row => draws draw row g) logits (generator w) in
    (Ok a, mkWorld (actor0 w) (envs w) g).

Definition column {X : Type} (l : list X) : matrix X := map (fun x => [x]) l.

Fixpoint rollout_loop (steps : nat) (obss0 : Tensor A) (r : Records)
  : M World Records :=
  match steps with
  | 0 => ret r
  | S steps' =>
    (outputs_ac0 <- on_actor (forward obss0) ;;
     action_token0 <- sample (logits_actions0 outputs_ac0) ;;
     action_token1 <- sample (logits_actions1 outputs_ac0) ;;
     st <- envs_step (zip_with (@app nat) action_token0 action_token1) ;;
     let r' := mkRecords
       (all_observations0 r ++ [obss0])
       (all_actions0 r ++ [action_token0])
       (all_logits_actions0 r ++ [logits_actions0 outputs_ac0])
       (all_values0 r ++ [means_values outputs_ac0])
       (all_actions1 r ++ [action_token1])
       (all_logits_actions1 r ++ [logits_actions1 outputs_ac0])
       (all_rewards r ++ [column (step_rewards st)])
       (all_ends r ++ [column (dones st)]) in
     if existsb (fun d => d) (dones st)
     then assert (forallb (fun d => d) (dones st)) ;;; ret r'
     else rollout_loop steps' (obs0 st) r')%rollout
  end.

(** [torch.stack(ts, dim=1)] for tensors of one shape (N, ...). *)
Definition stack_dim1 {X : Type} (ts : list (Tensor X)) : Tensor X :=
  let s := shape (nth 0 ts (mkTensor [] [])) in
  let n := nth 0 s 0 in
  let k := numel (tl s) in
  mkTensor (n :: length ts :: tl s)
    (flat_map (fun b => flat_map (fun t => nth b (chunks k n (data t)) []) ts)
              (seq 0 n)).

(** [t.mul(255).byte()] *)
Definition to_byte (v : A) : Z := (trunc (smul v (of_nat 255)) mod 256)%Z.

Definition mul255_byte (t : Tensor A) : Tensor Z :=
  mkTensor (shape t) (map to_byte (data t)).

Definition horizon : nat := 200.

(** The [return RolloutOutput(...)] statement. *)
Definition rollout_output (r : Records) : RolloutOutput :=
  mkRolloutOutput
    (mul255_byte (stack_dim1 (all_observations0 r)))
    (cat_dim1 (all_actions0 r))
    (cat_dim1 (all_actions1 r))
    (cat_dim1 (all_logits_actions0 r))
    (cat_dim1 (all_logits_actions1 r))
    (map (@concat A) (cat_dim1 (all_values0 r)))
    (cat_dim1 (all_rewards r))
    (cat_dim1 (all_ends r)).

Definition batch_rollout : M World RolloutOutput :=
  (n <- envs_n ;;
   on_actor (reset n) ;;;
   envs_reset ;;;
   st <- envs_step (repeat [0; 0] n) ;;
   r <- rollout_loop horizon (obs0 st) no_records ;;
   on_actor clear ;;;
   ret (rollout_output r))%rollout.

End Rollout.

Arguments StepResult : clear implicits.
Arguments Env : clear implicits.
Arguments RolloutOutput : clear implicits.
Arguments Records : clear implicits.
Arguments World : clear implicits.

(** ** The loss composer *)

(** The result of a reduction: a number, or the [nan] that the mean of no
    entries is. *)
Inductive num (A : Type) : Type :=
| Fin (a : A)
| NaN.

Arguments Fin {A} a.
Arguments NaN {A}.

Section Loss.

Context {A : Type} `{Scalar A}.

Definition nscale (k : A) (x : num A) : num A :=
  match x with
  | Fin a => Fin (smul k a)
  | NaN => NaN
  end.

Definition nadd (x y : num A) : num A :=
  match x, y with
  | Fin a, Fin b => Fin (sadd a b)
  | _, _ => NaN
  end.

(** [t.mean()]: the sum of the entries over their number. *)
Definition mean (l : list A) : num A :=
  match l with
  | [] => NaN
  | _ :: _ => Fin (sdiv (sum_list l) (of_nat (length l)))
  end.

Definition mean2 (t : matrix A) : num A := mean (concat t).

(** *** torch.distributions.Categorical, built from logits *)

Definition logsumexp (l : list A) : A := sln (sum_list (map sexp l)).

(** The normalised logits that the constructor stores. *)
Definition Categorical (logits : list A) : list A :=
  map (fun v => ssub v (logsumexp logits)) logits.

Definition probs (d : list A) : list A :=
  map (fun v => sdiv (sexp v) (sum_list (map sexp d))) d.

Definition log_prob (d : list A) (a : nat) : A := nth a d szero.

Definition entropy (d : list A) : A :=
  sneg (sum_list (zip_with smul d (probs d))).

(** Modelled from the spec: [LossWithIntermediateLosses] of the module
    [utils], which is not among the sources; a bundle of three scalar
    components and their sum. *)
Record LossWithIntermediateLosses : Type := mkLoss {
  loss_actions : num A;
  loss_values : num A;
  loss_entropy : num A
}.

Definition loss_total (l : LossWithIntermediateLosses) : num A :=
  nadd (nadd (loss_actions l) (loss_values l)) (loss_entropy l).

Definition detach_matrix (t : matrix A) : matrix A := map (map detach) t.

(** [with torch.no_grad(): f(rewards, values, ends, gamma, lambda_)]:
    nothing is recorded, the arguments count as constants and so does the
    result. *)
Definition no_grad
    (f : matrix A -> matrix A -> matrix bool -> A -> A -> matrix A)
    (rewards values : matrix A) (ends : matrix bool) (gamma lambda_ : A)
  : matrix A :=
  detach_matrix
    (f (detach_matrix rewards) (detach_matrix values) ends
       (detach gamma) (detach lambda_)).

Definition mse_loss (input target : matrix A) : num A :=
  mean2 (zip_with (zip_with (fun x y => smul (ssub x y) (ssub x y)))
                  input target).

(** [compute_lambda_returns] is imported from [utils]; the loss composer is
    taken over any function in its place. *)
Variable compute_lambda_returns :
  matrix A -> matrix A -> matrix bool -> A -> A -> matrix A.

Definition compute_loss (outputs : RolloutOutput A)
    (gamma lambda_ entropy_weight : A)
  : LossWithIntermediateLosses * LossWithIntermediateLosses * num A :=
  let rewards_total :=
    mean (map detach (map sum_list (rewards outputs))) in
  let lambda_returns :=
    drop_last_col
      (no_grad compute_lambda_returns
         (rewards outputs) (values outputs) (ends outputs) gamma lambda_) in
  let values := drop_last_col (values outputs) in
  let d0 := map (map Categorical)
              (drop_last_col (rollout_logits_actions0 outputs)) in
  let d1 := map (map Categorical)
              (drop_last_col (rollout_logits_actions1 outputs)) in
  let log_probs0 :=
    zip_with (zip_with log_prob) d0 (drop_last_col (actions0 outputs)) in
  let log_probs1 :=
    zip_with (zip_with log_prob) d1 (drop_last_col (actions1 outputs)) in
  let advantage t := zip_with (zip_with ssub) lambda_returns (detach_matrix t) in
  let loss_actions0 :=
    nscale (sneg sone)
      (mean2 (zip_with (zip_with smul) log_probs0 (advantage values))) in
  let loss_actions1 :=
    nscale (sneg sone)
      (mean2 (zip_with (zip_with smul) log_probs1 (advantage values))) in
  let loss_entropy0 :=
    nscale (sneg entropy_weight) (mean2 (map (map entropy) d0)) in
  let loss_entropy1 :=
    nscale (sneg entropy_weight) (mean2 (map (map entropy) d1)) in
  let loss_values := mse_loss values lambda_returns in
  (mkLoss loss_actions0 loss_values loss_entropy0,
   mkLoss loss_actions1 loss_values loss_entropy1,
   rewards_total).

End Loss.

Arguments LossWithIntermediateLosses : clear implicits.

(** ** The return estimator *)

Section Estimator.

Context {A : Type} `{Scalar A}.

Variables gamma lambda_ : A.

(** Modelled from the spec: [compute_lambda_returns] of the module [utils],
    which is not among the sources.  For one trajectory, backward from the
    last slot, whose return is its value; at a step flagged by [ends] the
    return is the reward alone; elsewhere it is
    [reward[t] + gamma * ((1 - lambda_) * value[t+1] + lambda_ * return[t+1])]. *)
Fixpoint lambda_returns_row (rs vs : list A) (es : list bool) {struct vs}
  : list A :=
  match vs with
  | [] => []
  | [v] => [v]
  | _ :: ((v' :: _) as vs') =>
    match rs, es with
    | r :: rs', e :: es' =>
      let rest := lambda_returns_row rs' vs' es' in
      (if (e : bool) then r
       else sadd r (smul gamma
                      (sadd (smul (ssub sone lambda_) v')
                            (smul lambda_ (hd szero rest)))))
      :: rest
    | _, _ => []
    end
  end.

End Estimator.

(** Modelled from the spec: the estimator on a batch, one trajectory per
    row. *)
Definition spec_lambda_returns {A : Type} `{Scalar A}
    (rewards values : matrix A) (ends : matrix bool) (gamma lambda_ : A)
  : matrix A :=
  zip_with (fun r ve => lambda_returns_row gamma lambda_ r (fst ve) (snd ve))
           rewards (combine values ends).


(** * Vocabulary of the statements *)

(** Shapes of nested tensors. *)
Definition shape2 {X : Type} (n k : nat) (m : matrix X) : Prop :=
  length m = n /\ Forall (fun r => length r = k) m.

Definition shape3 {X : Type} (n k j : nat) (t : list (matrix X)) : Prop :=
  length t = n /\ Forall (shape2 k j) t.

(** A tensor has as many entries as its shape says. *)
Definition wf_tensor {X : Type} (t : Tensor X) : Prop :=
  length (data t) = numel (shape t).

Section Vocabulary.

Context {A : Type} `{Scalar A}.

(** The hidden state of the module: absent, or present for a batch of [n]. *)
Definition absent (m : ActorCritic A) : Prop := hx m = None /\ cx m = None.

Definition present (n : nat) (m : ActorCritic A) : Prop :=
  exists h c, hx m = Some h /\ cx m = Some c /\
              shape2 n lstm_dim h /\ shape2 n lstm_dim c.

(** The test of the second assertion of [forward]. *)
Definition in_range (lo hi : A) : bool :=
  sleb szero lo && sleb lo sone && sleb szero hi && sleb hi sone.

(** The three heads on the new hidden state, as [forward] returns them. *)
Definition heads (m : ActorCritic A) (h : matrix A) : ActorCriticOutput A :=
  mkActorCriticOutput
    (map (fun r => [linear (actor_linear0 m) r]) h)
    (map (fun r => [linear (actor_linear1 m) r]) h)
    (map (fun r => [linear (critic_linear m) r]) h).

(** The feature extractor in the order the specification gives: for each
    stage the convolution, then ReLU, then the max-pooling. *)
Definition spec_stage (cv : Conv2d A) (mp : MaxPool2d) (x : list (image A))
  : list (image A) :=
  map (fun img => maxpool2d mp (relu_image (conv2d cv img))) x.

Definition spec_features (m : ActorCritic A) (inputs : Tensor A) : matrix A :=
  flatten1
    (spec_stage (conv4 m) maxp4
       (spec_stage (conv3 m) maxp3
          (spec_stage (conv2 m) maxp2
             (spec_stage (conv1 m) maxp1 (batch_of (rescale inputs)))))).

End Vocabulary.

Section RolloutVocabulary.

Context {A : Type} `{Scalar A}.

Variables E G : Type.
Variable envs_api : Env A E.
Variable draw : G -> list A -> nat * G.

(** The part of one iteration of the loop of [batch_rollout] that talks to
    the module, the generator and the environment. *)
Definition iteration (obss0 : Tensor A)
  : M (World A E G)
      (ActorCriticOutput A * matrix nat * matrix nat * StepResult A) :=
  (outputs_ac0 <- on_actor (forward obss0) ;;
   action_token0 <- sample draw (logits_actions0 outputs_ac0) ;;
   action_token1 <- sample draw (logits_actions1 outputs_ac0) ;;
   st <- envs_step envs_api (zip_with (@app nat) action_token0 action_token1) ;;
   ret (outputs_ac0, action_token0, action_token1, st))%rollout.

(** The records of one iteration, as lists of one entry. *)
Definition step_records (obss0 : Tensor A) (out : ActorCriticOutput A)
    (a0 a1 : matrix nat) (st : StepResult A) : Records A :=
  mkRecords [obss0] [a0] [logits_actions0 out] [means_values out]
            [a1] [logits_actions1 out]
            [column (step_rewards st)] [column (dones st)].

Definition append_records (r s : Records A) : Records A :=
  mkRecords
    (all_observations0 r ++ all_observations0 s)
    (all_actions0 r ++ all_actions0 s)
    (all_logits_actions0 r ++ all_logits_actions0 s)
    (all_values0 r ++ all_values0 s)
    (all_actions1 r ++ all_actions1 s)
    (all_logits_actions1 r ++ all_logits_actions1 s)
    (all_rewards r ++ all_rewards s)
    (all_ends r ++ all_ends s).

(** [st] is what some call of [envs.step] returned. *)
Definition stepped (st : StepResult A) : Prop :=
  exists e acts, fst (env_step envs_api e acts) = st.

(** What the collector relies on from the environment of batch size [n]:
    one reward and one flag per instance, and observations that have as
    many entries as their shape says. *)
Definition env_contract (n : nat) : Prop :=
  forall st, stepped st ->
    length (step_rewards st) = n /\ length (dones st) = n /\
    wf_tensor (obs0 st).

End RolloutVocabulary.

Section RolloutSegments.

Variables E G : Type.
Variable envs_api : Env R E.

Definition count_is (j : nat) (s : Records R) : Prop :=
  length (all_observations0 s) = j /\ length (all_actions0 s) = j /\
  length (all_logits_actions0 s) = j /\ length (all_values0 s) = j /\
  length (all_actions1 s) = j /\ length (all_logits_actions1 s) = j /\
  length (all_rewards s) = j /\ length (all_ends s) = j.

(** An observation that [forward] accepted for a batch of [n]. *)
Definition accepted (n : nat) (t : Tensor R) : Prop :=
  shape t = [n; 3; 64; 64] /\
  Forall (fun v => (0 <= v <= 1)%R) (data t) /\
  exists st, stepped envs_api st /\ t = obs0 st.

(** What [j] iterations of a loop of at most [steps] iterations record for
    a batch of [n]. *)
Record segment (n steps j : nat) (s : Records R) : Prop := mkSegment {
  seg_bound : j <= steps /\ (1 <= steps -> 1 <= j);
  seg_count : count_is j s;
  seg_observations : Forall (accepted n) (all_observations0 s);
  seg_actions0 : Forall (shape2 n 1) (all_actions0 s);
  seg_actions1 : Forall (shape2 n 1) (all_actions1 s);
  seg_logits0 : Forall (shape3 n 1 7) (all_logits_actions0 s);
  seg_logits1 : Forall (shape3 n 1 7) (all_logits_actions1 s);
  seg_values : Forall (shape3 n 1 1) (all_values0 s);
  seg_rewards :
    Forall (fun col => exists st, stepped envs_api st /\
                                  col = column (step_rewards st))
           (all_rewards s);
  seg_ends :
    Forall (fun col => exists st, stepped envs_api st /\ col = column (dones st))
           (all_ends s);
  (* no flag is raised before the last recorded step *)
  seg_running :
    Forall (Forall (fun row => row = [false])) (removelast (all_ends s));
  (* a loop that ended before its bound ended on flags that are all raised *)
  seg_stopped :
    j < steps -> Forall (fun row => row = [true]) (last (all_ends s) [])
}.

(** An environment whose observations [forward] accepts for a batch of
    [n], and one whose instances only ever terminate together. *)
Definition env_valid (n : nat) : Prop :=
  forall st, stepped envs_api st ->
    shape (obs0 st) = [n; 3; 64; 64] /\ wf_tensor (obs0 st) /\
    Forall (fun v => (0 <= v <= 1)%R) (data (obs0 st)).

Definition env_lockstep : Prop :=
  forall st, stepped envs_api st ->
    existsb (fun d => d) (dones st) = true ->
    forallb (fun d => d) (dones st) = true.

End RolloutSegments.

(** Entry [(b, t)] of a nested tensor, and the tensor of given entries. *)
Definition at2 {X : Type} (m : matrix X) (d : X) (b t : nat) : X :=
  nth t (nth b m []) d.

Definition tab {X : Type} (B T : nat) (f : nat -> nat -> X) : matrix X :=
  map (fun b => map (f b) (seq 0 T)) (seq 0 B).

(** The values of [f] over the batch and over the steps [0 .. T-1]. *)
Definition over_steps {X : Type} (B T : nat) (f : nat -> nat -> X) : list X :=
  flat_map (fun b => map (f b) (seq 0 T)) (seq 0 B).

Section LossVocabulary.

Context {A : Type} `{Scalar A}.

(** The shapes of a rollout of [T] steps for a batch of [B]. *)
Definition wf_rollout (B T : nat) (o : RolloutOutput A) : Prop :=
  shape2 B T (actions0 o) /\ shape2 B T (actions1 o) /\
  shape3 B T 7 (rollout_logits_actions0 o) /\
  shape3 B T 7 (rollout_logits_actions1 o) /\
  shape2 B T (values o) /\ shape2 B T (rewards o) /\ shape2 B T (ends o).

(** [lambda_returns - values.detach()] of [compute_loss]. *)
Definition advantage
    (clr : matrix A -> matrix A -> matrix bool -> A -> A -> matrix A)
    (o : RolloutOutput A) (gamma lambda_ : A) : matrix A :=
  zip_with (zip_with ssub)
    (drop_last_col (no_grad clr (rewards o) (values o) (ends o) gamma lambda_))
    (detach_matrix (drop_last_col (values o))).

(** One term of [F.mse_loss]. *)
Definition square_error (x y : A) : A := smul (ssub x y) (ssub x y).

End LossVocabulary.

(** A dual number that does not move with the parameters: autograd has no
    gradient to send through it. *)
Definition constant (d : Dual) : Prop := tangent d = 0%R.

Definition constant_matrix (m : matrix Dual) : Prop :=
  Forall (Forall constant) m.

(** Lines 111 and 112 of [compute_loss]: the action loss of a head, from
    its logits, the actions taken and the advantage. *)
Definition action_loss (logits : list (matrix Dual)) (actions : matrix nat)
    (adv : matrix Dual) : num Dual :=
  nscale (sneg sone)
    (mean2 (zip_with (zip_with smul)
              (zip_with (zip_with log_prob)
                 (map (map Categorical) (drop_last_col logits))
                 (drop_last_col actions))
              adv)).


(** * Concrete instances used as test inputs *)

(** Parameters that are all zero. *)
Definition zero_weights : Weights R :=
  mkWeights (fun _ _ _ _ => 0%R) (fun _ => 0%R)
            (fun _ _ _ _ => 0%R) (fun _ => 0%R)
            (fun _ _ _ _ => 0%R) (fun _ => 0%R)
            (fun _ _ _ _ => 0%R) (fun _ => 0%R)
            (fun _ _ => 0%R) (fun _ _ => 0%R) (fun _ => 0%R) (fun _ => 0%R)
            (fun _ _ => 0%R) (fun _ => 0%R)
            (fun _ _ => 0%R) (fun _ => 0%R)
            (fun _ _ => 0%R) (fun _ => 0%R).

(** The module after [reset(n)]. *)
Definition fresh_model (n : nat) : ActorCritic R :=
  snd (reset n (init zero_weights)).

(** A batch of [n] observations with every pixel equal to [v]. *)
Definition flat_obs (n : nat) (v : R) : Tensor R :=
  mkTensor [n; 3; 64; 64] (repeat v (n * (3 * 64 * 64))).

(** An environment batch of four instances whose flags follow a script:
    its state counts the transitions since the reset, the initial null
    action included, and [flags e] is what the transition number [e]
    reports. *)
Definition scripted_result (flags : nat -> list bool) (e : nat) : StepResult R :=
  mkStepResult (flat_obs 4 (1 / 2)) (flat_obs 4 (1 / 2))
    [1%R; 0%R; 0%R; 1%R] (flags e).

Definition scripted_step (flags : nat -> list bool) (e : nat) (_ : matrix nat)
  : StepResult R * nat :=
  (scripted_result flags e, S e).

Definition quiet : list bool := [false; false; false; false].

Definition scripted_env (flags : nat -> list bool) : Env R nat :=
  mkEnv (fun _ => 4) (fun _ => 0) (scripted_step flags).

(** All four instances terminate at the fifth step of the rollout. *)
Definition demo_flags (e : nat) : list bool :=
  if 5 <=? e then [true; true; true; true] else quiet.

Definition demo_env : Env R nat := scripted_env demo_flags.

(** Only three of the four do. *)
Definition partial_flags (e : nat) : list bool :=
  if 5 <=? e then [true; true; true; false] else quiet.

Definition partial_env : Env R nat := scripted_env partial_flags.

(** A sampler that always draws the first action. *)
Definition demo_draw (g : unit) (_ : list R) : nat * unit := (0, g).

Definition demo_world : World R nat unit := mkWorld (init zero_weights) 7 tt.

(** A rollout of three steps for a batch of one, and one of a single step. *)
Definition uniform_logits : list R := repeat 0%R 7.

Definition demo_rollout : RolloutOutput R :=
  mkRolloutOutput (mkTensor [] [])
    [[0; 1; 2]] [[3; 4; 5]]
    [[uniform_logits; uniform_logits; uniform_logits]]
    [[uniform_logits; uniform_logits; uniform_logits]]
    [[1%R; 2%R; 3%R]] [[1%R; 0%R; 1%R]] [[false; false; true]].

Definition one_step_rollout : RolloutOutput R :=
  mkRolloutOutput (mkTensor [] [])
    [[0]] [[3]] [[uniform_logits]] [[uniform_logits]]
    [[1%R]] [[1%R]] [[true]].

(** Two rollouts of two steps over dual numbers that differ only by the
    derivative of the value estimates. *)
Definition dual_logits : list Dual := repeat (0%R, 1%R) 7.

Definition dual_rollout (dv : R) : RolloutOutput Dual :=
  mkRolloutOutput (mkTensor [] [])
    [[0; 1]] [[2; 3]]
    [[dual_logits; dual_logits]] [[dual_logits; dual_logits]]
    [[(1%R, dv); (2%R, dv)]]
    [[(1%R, 0%R); (0%R, 0%R)]]
    [[false; true]].

(** The estimator over dual numbers. *)
Definition dual_clr
  : matrix Dual -> matrix Dual -> matrix bool -> Dual -> Dual -> matrix Dual :=
  spec_lambda_returns (A:=Dual).

(** An environment batch with no instance. *)
Definition empty_env : Env R unit :=
  mkEnv (fun _ => 0) (fun e => e)
        (fun e _ => (mkStepResult (flat_obs 0 0) (flat_obs 0 0) [] [], e)).

Definition empty_world : World R unit unit := mkWorld (init zero_weights) tt tt.

(** An environment batch of four instances that never terminate. *)
Definition endless_env : Env R nat := scripted_env (fun _ => quiet).

(** * Vocabulary of the further properties *)

(** The sampler draws an index of the logits it is given. *)
Definition draw_in_range {G : Type} (draw : G -> list R -> nat * G) : Prop :=
  forall (g : G) (l : list R), l <> [] -> fst (draw g l) < length l.

(** Every entry is one of the seven action indices. *)
Definition below7 (a : matrix nat) : Prop := Forall (Forall (fun x => x < 7)) a.

(** The derivative of the log-probability of the action [a] under the
    distribution of the logits [l]: the derivative of the logit of [a]
    minus the mean, under the softmax of [l], of the derivatives of all the
    logits. *)
Definition log_prob_derivative (l : list Dual) (a : nat) : R :=
  (tangent (nth a l szero) -
   sum_list (map (fun v => exp (primal v) * tangent v) l) /
   sum_list (map (fun v => exp (primal v)) l))%R.

(** * Properties *)

Unset Implicit Arguments.

(** ** Lists and shapes *)

Section ListFacts.

Variables X Y Z : Type.

Lemma chunks_length (k n : nat) (l : list X) : length (chunks k n l) = n.
Proof. unfold chunks. now rewrite length_map, length_seq. Qed.

Lemma chunks_full (k n : nat) (l : list X) :
  n * k <= length l -> Forall (fun c => length c = k) (chunks k n l).
Proof.
  intros Hl. apply Forall_forall. intros c Hc.
  apply in_map_iff in Hc. destruct Hc as [i [<- Hi]].
  apply in_seq in Hi.
  rewrite length_firstn, length_skipn. nia.
Qed.

Lemma In_firstn_list (k : nat) (l : list X) (x : X) :
  In x (firstn k l) -> In x l.
Proof.
  intros Hx. rewrite <- (firstn_skipn k l). apply in_or_app. now left.
Qed.

Lemma In_skipn_list (k : nat) (l : list X) (x : X) :
  In x (skipn k l) -> In x l.
Proof.
  intros Hx. rewrite <- (firstn_skipn k l). apply in_or_app. now right.
Qed.

Lemma chunks_In (k n : nat) (l c : list X) (x : X) :
  In c (chunks k n l) -> In x c -> In x l.
Proof.
  intros Hc Hx. apply in_map_iff in Hc. destruct Hc as [i [<- _]].
  eapply In_skipn_list, In_firstn_list, Hx.
Qed.

Lemma zip_with_length (f : X -> Y -> Z) (l1 : list X) (l2 : list Y) :
  length (zip_with f l1 l2) = Nat.min (length l1) (length l2).
Proof.
  revert l2. induction l1 as [|x l1 IH]; intros [|y l2]; simpl; auto.
Qed.

Lemma zip_with_In (f : X -> Y -> Z) (l1 : list X) (l2 : list Y) (z : Z) :
  In z (zip_with f l1 l2) ->
  exists x y, In x l1 /\ In y l2 /\ z = f x y.
Proof.
  revert l2. induction l1 as [|x l1 IH]; intros [|y l2]; simpl; try tauto.
  intros [<-|Hz].
  - exists x, y. auto.
  - destruct (IH _ Hz) as [x' [y' [? [? ?]]]]. exists x', y'. auto.
Qed.

Lemma concat_length_uniform (k : nat) (l : list (list X)) :
  Forall (fun r => length r = k) l -> length (concat l) = length l * k.
Proof.
  induction 1 as [|r l Hr _ IH]; simpl; auto.
  rewrite length_app, IH, Hr. reflexivity.
Qed.

End ListFacts.

Lemma shape2_intro {X : Type} {n k : nat} {m : matrix X} :
  length m = n -> (forall r, In r m -> length r = k) -> shape2 n k m.
Proof. intros Hn Hr. split; [exact Hn|]. now apply Forall_forall. Qed.

Lemma shape3_intro {X : Type} {n k j : nat} {t : list (matrix X)} :
  length t = n -> (forall m, In m t -> shape2 k j m) -> shape3 n k j t.
Proof. intros Hn Hr. split; [exact Hn|]. now apply Forall_forall. Qed.

Lemma shape2_row {X : Type} {n k : nat} {m : matrix X} {r : list X} :
  shape2 n k m -> In r m -> length r = k.
Proof. intros [_ Hm] Hr. rewrite Forall_forall in Hm. auto. Qed.

Lemma shape3_entry {X : Type} {n k j : nat} {t : list (matrix X)} {m : matrix X} :
  shape3 n k j t -> In m t -> shape2 k j m.
Proof. intros [_ Ht] Hm. rewrite Forall_forall in Ht. auto. Qed.

Lemma has_rows_shape2 {X : Type} (n k : nat) (m : matrix X) :
  has_rows n k m = true <-> shape2 n k m.
Proof.
  unfold has_rows, shape2. rewrite andb_true_iff, Nat.eqb_eq, forallb_forall, Forall_forall.
  split; intros [Hn Hr]; split; auto; intros r Hin.
  - apply Nat.eqb_eq. auto.
  - apply Nat.eqb_eq. auto.
Qed.

Lemma shape3_flat_length {X : Type} {c h w : nat} {x : image X} :
  shape3 c h w x -> length (concat (concat x)) = c * h * w.
Proof.
  intros [Hc Hx].
  assert (H1 : length (concat x) = length x * h).
  { apply concat_length_uniform.
    eapply Forall_impl; [|exact Hx]. intros m [Hm _]. exact Hm. }
  assert (H2 : length (concat (concat x)) = length (concat x) * w).
  { apply concat_length_uniform. apply Forall_concat.
    eapply Forall_impl; [|exact Hx]. intros m [_ Hm]. exact Hm. }
  rewrite H2, H1, Hc. reflexivity.
Qed.

Lemma view4_shape {X : Type} (n c h w : nat) (d : list X) :
  length d = n * (c * h * w) ->
  length (view4 n c h w d) = n /\ Forall (shape3 c h w) (view4 n c h w d).
Proof.
  intros Hd. unfold view4. split.
  - now rewrite length_map, chunks_length.
  - apply Forall_forall. intros img Himg.
    apply in_map_iff in Himg. destruct Himg as [blk [<- Hblk]].
    assert (Hlen : length blk = c * h * w).
    { pose proof (chunks_full X (c * h * w) n d) as Hf.
      rewrite Forall_forall in Hf. apply Hf; [lia|exact Hblk]. }
    apply shape3_intro.
    + now rewrite length_map, chunks_length.
    + intros ch Hch. apply in_map_iff in Hch. destruct Hch as [cb [<- Hcb]].
      assert (Hcl : length cb = h * w).
      { pose proof (chunks_full X (h * w) c blk) as Hf.
        rewrite Forall_forall in Hf. apply Hf; [lia|exact Hcb]. }
      split; [apply chunks_length|].
      apply chunks_full. lia.
Qed.

(** *** Concatenation along the time axis *)

Section CatFacts.

Variable X : Type.

(** A row of [torch.cat(ts, dim=1)] is made of one row of each tensor, in
    order. *)
Lemma cat_dim1_row (ts : list (list (list X))) (row : list X) :
  In row (cat_dim1 ts) ->
  exists picks, Forall2 (fun p t => In p t) picks ts /\ row = concat picks.
Proof.
  revert row. induction ts as [|t ts IH]; intros row Hrow.
  - destruct Hrow.
  - destruct ts as [|t' ts'].
    + exists [row]. split; [repeat constructor; exact Hrow|].
      cbn. now rewrite app_nil_r.
    + change (cat_dim1 (t :: t' :: ts'))
        with (zip_with (@app X) t (cat_dim1 (t' :: ts'))) in Hrow.
      apply zip_with_In in Hrow. destruct Hrow as [x [y [Hx [Hy ->]]]].
      destruct (IH y Hy) as [picks [Hp ->]].
      exists (x :: picks). split; [constructor; assumption|reflexivity].
Qed.

Lemma cat_dim1_length (n : nat) (ts : list (list (list X))) :
  ts <> [] -> Forall (fun t => length t = n) ts -> length (cat_dim1 ts) = n.
Proof.
  induction ts as [|t ts IH]; intros Hne Hall; [contradiction|].
  inversion Hall as [|? ? Ht Hts]; subst.
  destruct ts as [|t' ts']; [reflexivity|].
  change (cat_dim1 (t :: t' :: ts'))
    with (zip_with (@app X) t (cat_dim1 (t' :: ts'))).
  rewrite zip_with_length, IH; [lia|discriminate|exact Hts].
Qed.

Lemma picks_length (k : nat) (ts : list (list (list X))) (picks : list (list X)) :
  Forall2 (fun p t => In p t) picks ts ->
  Forall (fun t => Forall (fun r => length r = k) t) ts ->
  length picks = length ts /\ Forall (fun p => length p = k) picks.
Proof.
  induction 1 as [|p t picks ts Hp _ IH]; intros Hall; [auto|].
  inversion Hall as [|? ? Ht Hts]; subst.
  destruct (IH Hts) as [Hl Hk]. split; [cbn; now rewrite Hl|].
  constructor; [|exact Hk]. rewrite Forall_forall in Ht. auto.
Qed.

Lemma cat_dim1_shape2 (n : nat) (ts : list (list (list X))) :
  ts <> [] -> Forall (shape2 n 1) ts -> shape2 n (length ts) (cat_dim1 ts).
Proof.
  intros Hne Hall. apply shape2_intro.
  - apply cat_dim1_length; [exact Hne|].
    eapply Forall_impl; [|exact Hall]. intros t [Ht _]. exact Ht.
  - intros row Hrow. apply cat_dim1_row in Hrow.
    destruct Hrow as [picks [Hp ->]].
    destruct (picks_length 1 ts picks Hp) as [Hl Hk].
    { eapply Forall_impl; [|exact Hall]. intros t [_ Ht]. exact Ht. }
    rewrite (concat_length_uniform _ 1 picks Hk). lia.
Qed.

End CatFacts.

Lemma cat_dim1_shape3 {X : Type} (n k : nat) (ts : list (list (matrix X))) :
  ts <> [] -> Forall (shape3 n 1 k) ts -> shape3 n (length ts) k (cat_dim1 ts).
Proof.
  intros Hne Hall.
  assert (H2 : Forall (shape2 n 1) ts).
  { eapply Forall_impl; [|exact Hall]. intros t [Ht Hr]. split; [exact Ht|].
    eapply Forall_impl; [|exact Hr]. intros r [Hr1 _]. exact Hr1. }
  pose proof (cat_dim1_shape2 _ n ts Hne H2) as [Hlen Hrows].
  apply shape3_intro; [exact Hlen|].
  intros row Hrow. split.
  - rewrite Forall_forall in Hrows. auto.
  - apply cat_dim1_row in Hrow. destruct Hrow as [picks [Hp ->]].
    apply Forall_concat.
    clear Hne H2 Hlen Hrows. induction Hp as [|p t picks ts Hpt _ IH]; [constructor|].
    inversion Hall as [|? ? Ht Hts]; subst.
    constructor; [|exact (IH Hts)].
    destruct Ht as [_ Ht]. rewrite Forall_forall in Ht. apply (Ht p Hpt).
Qed.

Lemma squeeze_shape2 {X : Type} (n k : nat) (t : list (matrix X)) :
  shape3 n k 1 t -> shape2 n k (map (@concat X) t).
Proof.
  intros [Hn Ht]. apply shape2_intro; [now rewrite length_map|].
  intros r Hr. apply in_map_iff in Hr. destruct Hr as [m [<- Hm]].
  rewrite Forall_forall in Ht. destruct (Ht m Hm) as [Hk H1].
  rewrite (concat_length_uniform _ 1 m H1). lia.
Qed.

Lemma flat_map_length_uniform {X Y : Type} (c : nat) (f : X -> list Y) (l : list X) :
  (forall x, In x l -> length (f x) = c) ->
  length (flat_map f l) = length l * c.
Proof.
  induction l as [|x l IH]; intros Hc; [reflexivity|].
  cbn. rewrite length_app, IH, (Hc x); [reflexivity|now left|].
  intros y Hy. apply Hc. now right.
Qed.

(** The rows of the flags: no flag before the last step. *)
Lemma picks_of_flags (cols : list (matrix bool)) (picks : list (list bool)) :
  Forall2 (fun p t => In p t) picks cols -> cols <> [] ->
  Forall (Forall (fun row => row = [false])) (removelast cols) ->
  exists p, In p (last cols []) /\
            concat picks = repeat false (length cols - 1) ++ p.
Proof.
  induction 1 as [|p t picks cols Hp Hrest IH]; intros Hne Hrun; [contradiction|].
  destruct cols as [|t' cols'].
  - inversion Hrest; subst. exists p. split; [exact Hp|].
    cbn. now rewrite app_nil_r.
  - change (removelast (t :: t' :: cols'))
      with (t :: removelast (t' :: cols')) in Hrun.
    inversion Hrun as [|? ? Ht Hrun']; subst.
    destruct (IH ltac:(discriminate) Hrun') as [q [Hq Hc]].
    exists q. split; [exact Hq|].
    rewrite Forall_forall in Ht. rewrite (Ht p Hp).
    cbn [concat]. rewrite Hc.
    replace (length (t :: t' :: cols') - 1) with (S (length (t' :: cols') - 1))
      by (cbn [length]; lia).
    reflexivity.
Qed.

(** *** Tensors by their entries *)

Lemma list_tabulate {X : Type} (d : X) (l : list X) :
  l = map (fun i => nth i l d) (seq 0 (length l)).
Proof.
  induction l as [|x l IH]; [reflexivity|].
  cbn [length seq map nth]. f_equal.
  rewrite <- seq_shift, map_map. exact IH.
Qed.

Lemma zip_with_map {X Y Z W : Type} (f : X -> Y -> Z) (g : W -> X) (h : W -> Y)
    (l : list W) :
  zip_with f (map g l) (map h l) = map (fun x => f (g x) (h x)) l.
Proof. induction l as [|x l IH]; cbn; [reflexivity|now rewrite IH]. Qed.

Section TabFacts.

Variables X Y Z : Type.

Lemma tab_of_matrix (B T : nat) (d : X) (m : matrix X) :
  shape2 B T m -> m = tab B T (at2 m d).
Proof.
  intros [Hb Hr]. unfold tab, at2.
  rewrite (list_tabulate [] m) at 1. rewrite Hb.
  apply map_ext_in. intros b Hbin. apply in_seq in Hbin.
  assert (Hrow : length (nth b m []) = T).
  { rewrite Forall_forall in Hr. apply Hr, nth_In. lia. }
  rewrite (list_tabulate d (nth b m [])) at 1. now rewrite Hrow.
Qed.

Lemma zip_with_tab (f : X -> Y -> Z) (B T : nat)
    (g : nat -> nat -> X) (h : nat -> nat -> Y) :
  zip_with (zip_with f) (tab B T g) (tab B T h) =
  tab B T (fun b t => f (g b t) (h b t)).
Proof.
  unfold tab. rewrite zip_with_map. apply map_ext. intros b.
  apply zip_with_map.
Qed.

Lemma map_tab (k : X -> Y) (B T : nat) (g : nat -> nat -> X) :
  map (map k) (tab B T g) = tab B T (fun b t => k (g b t)).
Proof.
  unfold tab. rewrite map_map. apply map_ext. intros b. apply map_map.
Qed.

Lemma removelast_map_seq (g : nat -> X) (T : nat) :
  removelast (map g (seq 0 (S T))) = map g (seq 0 T).
Proof.
  rewrite seq_S, map_app. cbn [map]. apply removelast_last.
Qed.

Lemma drop_last_col_tab (B T : nat) (g : nat -> nat -> X) :
  drop_last_col (tab B (S T) g) = tab B T g.
Proof.
  unfold drop_last_col, tab. rewrite map_map. apply map_ext. intros b.
  apply removelast_map_seq.
Qed.

Lemma concat_tab (B T : nat) (g : nat -> nat -> X) :
  concat (tab B T g) = over_steps B T g.
Proof. unfold tab, over_steps. symmetry. apply flat_map_concat_map. Qed.

Lemma over_steps_length (B T : nat) (g : nat -> nat -> X) :
  length (over_steps B T g) = B * T.
Proof.
  unfold over_steps. rewrite (flat_map_length_uniform T).
  - now rewrite length_seq.
  - intros b _. now rewrite length_map, length_seq.
Qed.

Lemma removelast_map (f : X -> Y) (l : list X) :
  removelast (map f l) = map f (removelast l).
Proof.
  induction l as [|x l IH]; [reflexivity|].
  destruct l as [|y l]; [reflexivity|].
  cbn [map removelast] in *. now rewrite IH.
Qed.

End TabFacts.

(** ** The layers and [forward] *)

Section ForwardFacts.

Context {A : Type} `{Scalar A}.

Lemma forward_cases (inputs : Tensor A) (m : ActorCritic A) :
  forward inputs m =
  if (ndim inputs =? 4) && shape_eqb (tl (shape inputs)) [3; 64; 64] then
    match tmin inputs, tmax inputs with
    | Some lo, Some hi =>
      if in_range lo hi then
        match lstm_cell (lstm m) (features m inputs) (hx m) (cx m) with
        | Ok (h, c) => (Ok (heads m h), mkActorCritic (weights m) (Some h) (Some c))
        | Raise e => (Raise e, m)
        end
      else (Raise AssertionError, m)
    | _, _ => (Raise RuntimeError, m)
    end
  else (Raise AssertionError, m).
Proof.
  unfold forward, bind, assert, reduce, get, put, ret, raise, in_range, heads.
  destruct ((ndim inputs =? 4) && shape_eqb (tl (shape inputs)) [3; 64; 64]);
    [|reflexivity].
  destruct (tmin inputs) as [lo|]; [|destruct (tmax inputs); reflexivity].
  destruct (tmax inputs) as [hi|]; [|reflexivity].
  destruct (sleb szero lo && sleb lo sone && sleb szero hi && sleb hi sone);
    [|reflexivity].
  destruct (lstm_cell (lstm m) (features m inputs) (hx m) (cx m)) as [[h c]|e];
    reflexivity.
Qed.

Lemma shape_check_true (t : Tensor A) :
  (ndim t =? 4) && shape_eqb (tl (shape t)) [3; 64; 64] = true <->
  exists n, shape t = [n; 3; 64; 64].
Proof.
  unfold ndim, shape_eqb. rewrite andb_true_iff, Nat.eqb_eq.
  destruct (list_eq_dec Nat.eq_dec (tl (shape t)) [3; 64; 64]) as [E|E].
  - split.
    + intros [Hl _]. destruct (shape t) as [|n s]; [discriminate|].
      simpl in E. subst. now exists n.
    + intros [n ->]. auto.
  - split; [intros [_ ?]; discriminate|].
    intros [n Hn]. rewrite Hn in E. now contradiction E.
Qed.

Lemma shape3_height {c h w : nat} {x : image A} :
  shape3 c h w x -> 0 < c -> height x = h.
Proof.
  intros Hx Hc. unfold height.
  destruct x as [|ch x]; [destruct Hx; simpl in *; lia|].
  simpl. apply (shape3_entry Hx (or_introl eq_refl)).
Qed.

Lemma shape3_width {c h w : nat} {x : image A} :
  shape3 c h w x -> 0 < c -> 0 < h -> width x = w.
Proof.
  intros Hx Hc Hh. unfold width.
  destruct x as [|ch x]; [destruct Hx; simpl in *; lia|].
  simpl. pose proof (shape3_entry Hx (or_introl eq_refl)) as Hch.
  destruct ch as [|r ch]; [destruct Hch; simpl in *; lia|].
  simpl. apply (shape2_row Hch (or_introl eq_refl)).
Qed.

Lemma conv2d_shape (cv : Conv2d A) (x : image A) :
  shape3 (out_channels cv)
         (conv_out_size (height x) (kernel_size cv) (stride cv) (padding cv))
         (conv_out_size (width x) (kernel_size cv) (stride cv) (padding cv))
         (conv2d cv x).
Proof.
  unfold conv2d. apply shape3_intro.
  - now rewrite length_map, length_seq.
  - intros ch Hch. apply in_map_iff in Hch. destruct Hch as [o [<- _]].
    apply shape2_intro.
    + now rewrite length_map, length_seq.
    + intros r Hr. apply in_map_iff in Hr. destruct Hr as [i [<- _]].
      now rewrite length_map, length_seq.
Qed.

Lemma maxpool_channel_shape (mp : MaxPool2d) (h w : nat) (ch : list (list A)) :
  shape2 h w ch -> 0 < h ->
  shape2 (pool_out_size h (pool_kernel mp) (pool_stride mp))
         (pool_out_size w (pool_kernel mp) (pool_stride mp))
         (maxpool_channel mp ch).
Proof.
  intros Hch Hh. unfold maxpool_channel.
  assert (Hw : length (nth 0 ch []) = w).
  { destruct ch as [|r ch]; [destruct Hch; simpl in *; lia|].
    apply (shape2_row Hch (or_introl eq_refl)). }
  destruct Hch as [Hlen _]. rewrite Hw, Hlen.
  apply shape2_intro.
  - now rewrite length_map, length_seq.
  - intros r Hr. apply in_map_iff in Hr. destruct Hr as [i [<- _]].
    now rewrite length_map, length_seq.
Qed.

Lemma maxpool2d_shape (mp : MaxPool2d) (c h w : nat) (x : image A) :
  shape3 c h w x -> 0 < h ->
  shape3 c (pool_out_size h (pool_kernel mp) (pool_stride mp))
           (pool_out_size w (pool_kernel mp) (pool_stride mp))
           (maxpool2d mp x).
Proof.
  intros Hx Hh. unfold maxpool2d. apply shape3_intro.
  - rewrite length_map. apply Hx.
  - intros ch Hch. apply in_map_iff in Hch. destruct Hch as [ch0 [<- Hin]].
    apply maxpool_channel_shape; [|exact Hh].
    exact (shape3_entry Hx Hin).
Qed.

Lemma relu_image_shape (c h w : nat) (x : image A) :
  shape3 c h w x -> shape3 c h w (relu_image x).
Proof.
  intros Hx. unfold relu_image. apply shape3_intro.
  - rewrite length_map. apply Hx.
  - intros ch Hch. apply in_map_iff in Hch. destruct Hch as [ch0 [<- Hin]].
    pose proof (shape3_entry Hx Hin) as Hch0.
    apply shape2_intro.
    + rewrite length_map. apply Hch0.
    + intros r Hr. apply in_map_iff in Hr. destruct Hr as [r0 [<- Hr0]].
      rewrite length_map. exact (shape2_row Hch0 Hr0).
Qed.

(** One stage of [forward] on an image of known shape. *)
Lemma stage_shape (cv : Conv2d A) (mp : MaxPool2d) (c h w : nat)
    (x : list (image A)) :
  Forall (shape3 c h w) x -> 0 < c -> 0 < h ->
  0 < conv_out_size h (kernel_size cv) (stride cv) (padding cv) ->
  Forall (shape3 (out_channels cv)
            (pool_out_size
               (conv_out_size h (kernel_size cv) (stride cv) (padding cv))
               (pool_kernel mp) (pool_stride mp))
            (pool_out_size
               (conv_out_size w (kernel_size cv) (stride cv) (padding cv))
               (pool_kernel mp) (pool_stride mp)))
         (stage cv mp x).
Proof.
  intros Hx Hc Hh Ho. unfold stage. apply Forall_forall. intros y Hy.
  apply in_map_iff in Hy. destruct Hy as [img [<- Himg]].
  rewrite Forall_forall in Hx. specialize (Hx _ Himg).
  apply relu_image_shape, maxpool2d_shape; [|exact Ho].
  pose proof (conv2d_shape cv img) as Hcv.
  rewrite (shape3_height Hx Hc), (shape3_width Hx Hc Hh) in Hcv. exact Hcv.
Qed.

Lemma stage_length (cv : Conv2d A) (mp : MaxPool2d) (x : list (image A)) :
  length (stage cv mp x) = length x.
Proof. unfold stage. apply length_map. Qed.

Lemma rescale_shape (t : Tensor A) : shape (rescale t) = shape t.
Proof. reflexivity. Qed.

Lemma rescale_data_length (t : Tensor A) :
  length (data (rescale t)) = length (data t).
Proof. unfold rescale. simpl. apply length_map. Qed.

(** The shapes after each of the four stages. *)
Lemma stages_shape (m : ActorCritic A) (n : nat) (inputs : Tensor A) :
  shape inputs = [n; 3; 64; 64] -> wf_tensor inputs ->
  let x0 := batch_of (rescale inputs) in
  let x1 := stage (conv1 m) maxp1 x0 in
  let x2 := stage (conv2 m) maxp2 x1 in
  let x3 := stage (conv3 m) maxp3 x2 in
  let x4 := stage (conv4 m) maxp4 x3 in
  (length x0 = n /\ Forall (shape3 3 64 64) x0) /\
  Forall (shape3 32 32 32) x1 /\
  Forall (shape3 32 16 16) x2 /\
  Forall (shape3 64 8 8) x3 /\
  Forall (shape3 64 4 4) x4.
Proof.
  intros Hs Hwf x0 x1 x2 x3 x4.
  assert (Hb : length x0 = n /\ Forall (shape3 3 64 64) x0).
  { unfold x0, batch_of. rewrite rescale_shape, Hs.
    cbn [nth]. apply view4_shape.
    rewrite rescale_data_length. unfold wf_tensor in Hwf.
    rewrite Hwf, Hs. unfold numel. cbn [fold_right]. lia. }
  assert (H1 : Forall (shape3 32 32 32) x1).
  { apply (stage_shape (conv1 m) maxp1 3 64 64 x0 (proj2 Hb));
      [lia | lia | vm_compute; lia]. }
  assert (H2 : Forall (shape3 32 16 16) x2).
  { apply (stage_shape (conv2 m) maxp2 32 32 32 x1 H1);
      [lia | lia | vm_compute; lia]. }
  assert (H3 : Forall (shape3 64 8 8) x3).
  { apply (stage_shape (conv3 m) maxp3 32 16 16 x2 H2);
      [lia | lia | vm_compute; lia]. }
  assert (H4 : Forall (shape3 64 4 4) x4).
  { apply (stage_shape (conv4 m) maxp4 64 8 8 x3 H3);
      [lia | lia | vm_compute; lia]. }
  auto.
Qed.

(** The features are one row of 1024 entries per batch entry. *)
Lemma features_shape (m : ActorCritic A) (n : nat) (inputs : Tensor A) :
  shape inputs = [n; 3; 64; 64] -> wf_tensor inputs ->
  shape2 n 1024 (features m inputs).
Proof.
  intros Hs Hwf.
  destruct (stages_shape m n inputs Hs Hwf) as [[Hn _] [_ [_ [_ H4]]]].
  unfold features, flatten1. apply shape2_intro.
  - rewrite length_map, !stage_length. exact Hn.
  - intros r Hr. apply in_map_iff in Hr. destruct Hr as [img [<- Himg]].
    rewrite Forall_forall in H4.
    rewrite (shape3_flat_length (H4 _ Himg)). reflexivity.
Qed.

Lemma lstm_cell_ok (cell : LSTMCell A) (n : nat) (x h c : matrix A) :
  shape2 n (input_size cell) x ->
  shape2 n (hidden_size cell) h -> shape2 n (hidden_size cell) c ->
  exists h' c',
    lstm_cell cell x (Some h) (Some c) = Ok (h', c') /\
    shape2 n (hidden_size cell) h' /\ shape2 n (hidden_size cell) c'.
Proof.
  intros Hx Hh Hc. unfold lstm_cell.
  assert (Hn : length x = n) by apply Hx.
  rewrite Hn.
  rewrite (proj2 (has_rows_shape2 _ _ _) Hx), (proj2 (has_rows_shape2 _ _ _) Hh),
          (proj2 (has_rows_shape2 _ _ _) Hc).
  cbn [andb]. eexists. eexists. split; [reflexivity|].
  assert (Hlen : length (zip_with (lstm_row cell) x (combine h c)) = n).
  { rewrite zip_with_length, length_combine.
    destruct Hh as [Hh _], Hc as [Hc _]. lia. }
  split; apply shape2_intro; try (now rewrite length_map).
  - intros r Hr. apply in_map_iff in Hr. destruct Hr as [[h1 c1] [<- Hin]].
    apply zip_with_In in Hin. destruct Hin as [x1 [hc [_ [_ Heq]]]].
    unfold lstm_row in Heq. inversion Heq; subst. simpl.
    now rewrite length_map, length_seq.
  - intros r Hr. apply in_map_iff in Hr. destruct Hr as [[h1 c1] [<- Hin]].
    apply zip_with_In in Hin. destruct Hin as [x1 [hc [_ [_ Heq]]]].
    unfold lstm_row in Heq. inversion Heq; subst. simpl.
    now rewrite length_map, length_seq.
Qed.

Lemma lstm_cell_inv (cell : LSTMCell A) (x : matrix A)
    (ohx ocx : option (matrix A)) (h' c' : matrix A) :
  lstm_cell cell x ohx ocx = Ok (h', c') ->
  exists h c,
    ohx = Some h /\ ocx = Some c /\
    shape2 (length x) (input_size cell) x /\
    shape2 (length x) (hidden_size cell) h /\
    shape2 (length x) (hidden_size cell) c /\
    shape2 (length x) (hidden_size cell) h' /\
    shape2 (length x) (hidden_size cell) c'.
Proof.
  unfold lstm_cell. intros Hl.
  destruct ohx as [h|]; [|discriminate].
  destruct ocx as [c|]; [|discriminate].
  destruct (has_rows (length x) (input_size cell) x) eqn:Ex; [|discriminate].
  destruct (has_rows (length x) (hidden_size cell) h) eqn:Eh; [|discriminate].
  destruct (has_rows (length x) (hidden_size cell) c) eqn:Ec; [|discriminate].
  apply has_rows_shape2 in Ex, Eh, Ec.
  destruct (lstm_cell_ok cell (length x) x h c Ex Eh Ec) as [h2 [c2 [Hok [Hh2 Hc2]]]].
  unfold lstm_cell in Hok.
  rewrite (proj2 (has_rows_shape2 _ _ _) Ex), (proj2 (has_rows_shape2 _ _ _) Eh),
          (proj2 (has_rows_shape2 _ _ _) Ec) in Hok.
  cbn [andb] in Hl, Hok. rewrite Hl in Hok. inversion Hok; subst.
  exists h, c. repeat split; auto; try apply Ex; try apply Eh; try apply Ec;
    try apply Hh2; try apply Hc2.
Qed.

Lemma lstm_cell_absent (cell : LSTMCell A) (x : matrix A)
    (ohx ocx : option (matrix A)) :
  ohx = None \/ ocx = None ->
  lstm_cell cell x ohx ocx = Raise AttributeError.
Proof.
  intros [-> | ->]; unfold lstm_cell; [reflexivity|].
  destruct ohx; reflexivity.
Qed.

Lemma lstm_cell_batch_mismatch (cell : LSTMCell A) (x h c : matrix A) :
  length h <> length x ->
  lstm_cell cell x (Some h) (Some c) = Raise RuntimeError.
Proof.
  intros Hne. unfold lstm_cell, has_rows.
  destruct (length h =? length x) eqn:E; [apply Nat.eqb_eq in E; contradiction|].
  rewrite andb_false_l, andb_false_r. reflexivity.
Qed.

Lemma heads_shape (m : ActorCritic A) (n : nat) (h : matrix A) :
  length h = n ->
  shape3 n 1 7 (logits_actions0 (heads m h)) /\
  shape3 n 1 7 (logits_actions1 (heads m h)) /\
  shape3 n 1 1 (means_values (heads m h)).
Proof.
  intros Hn. unfold heads. cbn [logits_actions0 logits_actions1 means_values].
  repeat split; try (now rewrite length_map);
    apply Forall_forall; intros r Hr;
    apply in_map_iff in Hr; destruct Hr as [r0 [<- _]];
    (split; [reflexivity|]); constructor; auto;
    unfold linear; now rewrite length_map, length_seq.
Qed.

Lemma zeros_shape (n k : nat) : shape2 n k (zeros (A:=A) n k).
Proof.
  unfold zeros. apply shape2_intro.
  - apply repeat_length.
  - intros r Hr. apply repeat_spec in Hr. subst. apply repeat_length.
Qed.

End ForwardFacts.

(** ** The network over the real numbers *)

Section RealFacts.

Open Scope R_scope.

Lemma Rleb_true (x y : R) : Rleb x y = true <-> x <= y.
Proof.
  unfold Rleb. destruct (Rle_dec x y); split; intros; auto; discriminate.
Qed.

Lemma fold_min_spec (r : list R) (a : R) :
  (forall x, In x (a :: r) -> fold_left Rmin r a <= x) /\
  In (fold_left Rmin r a) (a :: r).
Proof.
  revert a. induction r as [|b r IH]; intros a; simpl.
  - split; [intros x [<-|[]]; lra | now left].
  - destruct (IH (Rmin a b)) as [Hle Hin]. split.
    + intros x [<-|[<-|Hx]].
      * eapply Rle_trans; [apply Hle; now left|apply Rmin_l].
      * eapply Rle_trans; [apply Hle; now left|apply Rmin_r].
      * apply Hle. now right.
    + destruct Hin as [Heq|Hin]; [|now right; right].
      rewrite <- Heq. unfold Rmin. destruct (Rle_dec a b); auto.
Qed.

Lemma fold_max_spec (r : list R) (a : R) :
  (forall x, In x (a :: r) -> x <= fold_left Rmax r a) /\
  In (fold_left Rmax r a) (a :: r).
Proof.
  revert a. induction r as [|b r IH]; intros a; simpl.
  - split; [intros x [<-|[]]; lra | now left].
  - destruct (IH (Rmax a b)) as [Hle Hin]. split.
    + intros x [<-|[<-|Hx]].
      * eapply Rle_trans; [apply Rmax_l|apply Hle; now left].
      * eapply Rle_trans; [apply Rmax_r|apply Hle; now left].
      * apply Hle. now right.
    + destruct Hin as [Heq|Hin]; [|now right; right].
      rewrite <- Heq. unfold Rmax. destruct (Rle_dec a b); auto.
Qed.

Lemma in_range_true (lo hi : R) :
  in_range lo hi = true <-> 0 <= lo <= 1 /\ 0 <= hi <= 1.
Proof.
  unfold in_range. cbn [sleb szero sone R_Scalar].
  rewrite !andb_true_iff, !Rleb_true. tauto.
Qed.

(** The second assertion of [forward] passes exactly on a tensor that has
    entries, all of them between 0 and 1. *)
Lemma range_check_ok (t : Tensor R) :
  data t <> [] -> Forall (fun v => 0 <= v <= 1) (data t) ->
  exists lo hi, tmin t = Some lo /\ tmax t = Some hi /\ in_range lo hi = true.
Proof.
  intros Hne Hall. unfold tmin, tmax, fold1.
  destruct (data t) as [|a r]; [contradiction|].
  eexists. eexists. split; [reflexivity|]. split; [reflexivity|].
  apply in_range_true. rewrite Forall_forall in Hall.
  cbn [smin smax R_Scalar].
  split; apply Hall; [apply fold_min_spec | apply fold_max_spec].
Qed.

Lemma range_check_inv (t : Tensor R) (lo hi : R) :
  tmin t = Some lo -> tmax t = Some hi -> in_range lo hi = true ->
  Forall (fun v => 0 <= v <= 1) (data t).
Proof.
  unfold tmin, tmax, fold1. intros Hlo Hhi Hr.
  destruct (data t) as [|a r]; [discriminate|].
  inversion Hlo; inversion Hhi; subst. clear Hlo Hhi.
  apply in_range_true in Hr. cbn [smin smax R_Scalar] in Hr.
  apply Forall_forall. intros v Hv.
  pose proof (proj1 (fold_min_spec r a) v Hv).
  pose proof (proj1 (fold_max_spec r a) v Hv). lra.
Qed.

Lemma range_check_bad (t : Tensor R) (v : R) :
  In v (data t) -> v < 0 \/ 1 < v ->
  exists lo hi, tmin t = Some lo /\ tmax t = Some hi /\ in_range lo hi = false.
Proof.
  intros Hv Hbad. unfold tmin, tmax, fold1.
  destruct (data t) as [|a r] eqn:Ed; [destruct Hv|].
  eexists. eexists. split; [reflexivity|]. split; [reflexivity|].
  destruct (in_range (fold_left smin r a) (fold_left smax r a)) eqn:Er; [|reflexivity].
  exfalso. apply in_range_true in Er. cbn [smin smax R_Scalar] in Er.
  pose proof (proj1 (fold_min_spec r a) v Hv).
  pose proof (proj1 (fold_max_spec r a) v Hv). lra.
Qed.

(** *** ReLU and max-pooling commute *)

Lemma relu_zero : relu (A:=R) 0 = 0.
Proof. unfold relu. cbn [smax szero R_Scalar]. apply Rmax_left. lra. Qed.

Lemma relu_max (a b : R) : Rmax (relu a) (relu b) = relu (Rmax a b).
Proof.
  unfold relu. cbn [smax szero R_Scalar].
  unfold Rmax. repeat destruct (Rle_dec _ _); lra.
Qed.

Lemma relu_fold_max (r : list R) (a : R) :
  fold_left Rmax (map relu r) (relu a) = relu (fold_left Rmax r a).
Proof.
  revert a. induction r as [|b r IH]; intros a; cbn [fold_left map]; [reflexivity|].
  rewrite relu_max. apply IH.
Qed.

Lemma relu_max_list (l : list R) : max_list (map relu l) = relu (max_list l).
Proof.
  destruct l as [|a r]; cbn [max_list map].
  - symmetry. apply relu_zero.
  - apply relu_fold_max.
Qed.

Lemma flat_map_map2 (f : R -> R) (g : nat -> nat -> R) (l1 l2 : list nat) :
  flat_map (fun di => map (fun dj => f (g di dj)) l2) l1 =
  map f (flat_map (fun di => map (fun dj => g di dj) l2) l1).
Proof.
  induction l1 as [|di l1 IH]; cbn [flat_map map]; [reflexivity|].
  rewrite map_app, IH, map_map. reflexivity.
Qed.

Lemma window_map (k : nat) (f : R -> R) (g : nat -> nat -> R) :
  window k (fun di dj => f (g di dj)) = map f (window k g).
Proof. unfold window. apply flat_map_map2. Qed.

Lemma nth2_relu (ch : list (list R)) (i j : nat) :
  nth j (nth i (map (map relu) ch) []) 0 = relu (nth j (nth i ch []) 0).
Proof.
  change (@nil R) with (map (relu (A:=R)) []) at 1.
  rewrite map_nth.
  rewrite <- relu_zero at 1. apply map_nth.
Qed.

Lemma relu_maxpool_channel (mp : MaxPool2d) (ch : list (list R)) :
  map (map relu) (maxpool_channel mp ch) =
  maxpool_channel mp (map (map relu) ch).
Proof.
  unfold maxpool_channel.
  rewrite length_map.
  replace (length (nth 0 (map (map relu) ch) []))
    with (length (nth 0 ch [])).
  2:{ change (@nil R) with (map (relu (A:=R)) []) at 2.
      rewrite map_nth, length_map. reflexivity. }
  rewrite map_map. apply map_ext. intros i.
  rewrite map_map. apply map_ext. intros j.
  rewrite <- relu_max_list, <- window_map.
  f_equal. unfold window.
  apply flat_map_ext. intros di. apply map_ext. intros dj.
  symmetry. apply nth2_relu.
Qed.

Lemma relu_maxpool2d (mp : MaxPool2d) (x : image R) :
  relu_image (maxpool2d mp x) = maxpool2d mp (relu_image x).
Proof.
  unfold relu_image, maxpool2d. rewrite !map_map.
  apply map_ext. intros ch. apply relu_maxpool_channel.
Qed.

Lemma stage_spec_stage (cv : Conv2d R) (mp : MaxPool2d) (x : list (image R)) :
  stage cv mp x = spec_stage cv mp x.
Proof.
  unfold stage, spec_stage. apply map_ext. intros img. apply relu_maxpool2d.
Qed.

End RealFacts.

(** ** The contract of [forward] *)

Section ForwardClaims.

Open Scope R_scope.

Lemma flat_obs_wf (n : nat) (v : R) : wf_tensor (flat_obs n v).
Proof.
  unfold wf_tensor, flat_obs. cbn [data shape].
  rewrite repeat_length. unfold numel. cbn [fold_right]. lia.
Qed.

Lemma flat_obs_range (n : nat) (v : R) :
  0 <= v <= 1 -> Forall (fun x => 0 <= x <= 1) (data (flat_obs n v)).
Proof.
  intros Hv. apply Forall_forall. intros x Hx.
  apply repeat_spec in Hx. now subst.
Qed.

Lemma fresh_model_present (n : nat) : present n (fresh_model n).
Proof.
  exists (zeros n lstm_dim), (zeros n lstm_dim).
  repeat split; try reflexivity; try apply zeros_shape; apply repeat_length.
Qed.

Lemma nonempty_data (n : nat) (t : Tensor R) :
  (1 <= n)%nat -> shape t = [n; 3; 64; 64]%nat -> wf_tensor t -> data t <> [].
Proof.
  intros Hn Hs Hwf Hd. unfold wf_tensor in Hwf.
  rewrite Hd, Hs in Hwf. unfold numel in Hwf. cbn [fold_right length] in Hwf. lia.
Qed.

(** On a valid batch with the hidden state present for the same batch size,
    [forward] returns, with the shapes (n,1,7), (n,1,7) and (n,1,1), and
    leaves the state present for that size. *)
Lemma forward_succeeds (m : ActorCritic R) (n : nat) (inputs : Tensor R) :
  (1 <= n)%nat -> shape inputs = [n; 3; 64; 64]%nat -> wf_tensor inputs ->
  Forall (fun v => 0 <= v <= 1) (data inputs) ->
  present n m ->
  exists out m',
    forward inputs m = (Ok out, m') /\
    shape3 n 1 7 (logits_actions0 out) /\
    shape3 n 1 7 (logits_actions1 out) /\
    shape3 n 1 1 (means_values out) /\
    present n m' /\ weights m' = weights m.
Proof.
  intros Hn Hs Hwf Hall [h [c [Hh [Hc [Sh Sc]]]]].
  rewrite forward_cases.
  rewrite (proj2 (shape_check_true inputs) (ex_intro _ n Hs)).
  destruct (range_check_ok inputs (nonempty_data n inputs Hn Hs Hwf) Hall)
    as [lo [hi [-> [-> ->]]]].
  rewrite Hh, Hc.
  destruct (lstm_cell_ok (lstm m) n (features m inputs) h c
              (features_shape m n inputs Hs Hwf) Sh Sc)
    as [h' [c' [-> [Sh' Sc']]]].
  eexists. eexists. split; [reflexivity|].
  destruct (heads_shape m n h' (proj1 Sh')) as [H0 [H1 H2]].
  repeat split; try apply H0; try apply H1; try apply H2.
  exists h', c'. auto.
Qed.

(** When an assertion of [forward] fails, the module is left as it was. *)
Lemma forward_rejects (m : ActorCritic R) (inputs : Tensor R) :
  ndim inputs <> 4%nat \/ tl (shape inputs) <> [3; 64; 64]%nat \/
  (exists v, In v (data inputs) /\ (v < 0 \/ 1 < v)) ->
  forward inputs m = (Raise AssertionError, m).
Proof.
  intros Hbad. rewrite forward_cases.
  destruct ((ndim inputs =? 4)%nat && shape_eqb (tl (shape inputs)) [3; 64; 64]%nat)
    eqn:Es; [|reflexivity].
  apply shape_check_true in Es. destruct Es as [n Hs].
  destruct Hbad as [Hr | [Ht | [v [Hv Hout]]]].
  - exfalso. apply Hr. unfold ndim. now rewrite Hs.
  - exfalso. apply Ht. now rewrite Hs.
  - destruct (range_check_bad inputs v Hv Hout) as [lo [hi [-> [-> ->]]]].
    reflexivity.
Qed.

(** C6, as amended: for every batch of shape (n,3,64,64) with n at least 1,
    all values in [0,1] and the hidden state present for the same batch
    size n, [forward] succeeds and returns logits of shape (n,1,7) for each
    head and a value of shape (n,1,1); on an input of wrong rank, wrong
    channel or spatial dimensions, or with a pixel outside [0,1], it fails
    with an assertion and the module, hidden state included, is untouched. *)
Theorem forward_contract (m : ActorCritic R) (n : nat) (inputs : Tensor R) :
  wf_tensor inputs ->
  ((1 <= n)%nat /\ shape inputs = [n; 3; 64; 64]%nat /\
   Forall (fun v => 0 <= v <= 1) (data inputs) /\ present n m ->
   exists out m',
     forward inputs m = (Ok out, m') /\
     shape3 n 1 7 (logits_actions0 out) /\
     shape3 n 1 7 (logits_actions1 out) /\
     shape3 n 1 1 (means_values out)) /\
  (ndim inputs <> 4%nat \/ tl (shape inputs) <> [3; 64; 64]%nat \/
   (exists v, In v (data inputs) /\ (v < 0 \/ 1 < v)) ->
   forward inputs m = (Raise AssertionError, m)).
Proof.
  intros Hwf. split.
  - intros [Hn [Hs [Hall Hp]]].
    destruct (forward_succeeds m n inputs Hn Hs Hwf Hall Hp)
      as [out [m' [Hf [H0 [H1 [H2 _]]]]]].
    exists out, m'. auto.
  - apply forward_rejects.
Qed.

Lemma forward_contract_witness :
  (exists out m',
     forward (flat_obs 1 0) (fresh_model 1) = (Ok out, m') /\
     shape3 1 1 7 (logits_actions0 out) /\
     shape3 1 1 7 (logits_actions1 out) /\
     shape3 1 1 1 (means_values out)) /\
  forward (flat_obs 1 2) (fresh_model 1) = (Raise AssertionError, fresh_model 1).
Proof.
  pose proof (forward_contract (fresh_model 1) 1 (flat_obs 1 0) (flat_obs_wf 1 0))
    as [Hok _].
  pose proof (forward_contract (fresh_model 1) 1 (flat_obs 1 2) (flat_obs_wf 1 2))
    as [_ Hbad].
  split.
  - apply Hok. split; [lia|]. split; [reflexivity|].
    split; [apply flat_obs_range; lra | apply fresh_model_present].
  - apply Hbad. right. right. exists 2. split; [|lra].
    unfold flat_obs. cbn [data]. destruct (1 * (3 * 64 * 64))%nat eqn:E; [lia|].
    now left.
Defined.

(** C6 as stated does not hold: with the hidden state present for a batch
    of 2, [forward] refuses a valid batch of 1; and with the hidden state
    present, an empty batch of the right shape, in which no pixel is out of
    range, is refused by [min]. *)
Lemma forward_present_not_enough :
  (present 2 (fresh_model 2) /\
   shape (flat_obs 1 0) = [1; 3; 64; 64]%nat /\
   Forall (fun v => 0 <= v <= 1) (data (flat_obs 1 0)) /\
   forward (flat_obs 1 0) (fresh_model 2) = (Raise RuntimeError, fresh_model 2)) /\
  (present 0 (fresh_model 0) /\
   shape (flat_obs 0 0) = [0; 3; 64; 64]%nat /\
   Forall (fun v => 0 <= v <= 1) (data (flat_obs 0 0)) /\
   forward (flat_obs 0 0) (fresh_model 0) = (Raise RuntimeError, fresh_model 0)).
Proof.
  split.
  - split; [apply fresh_model_present|]. split; [reflexivity|].
    split; [apply flat_obs_range; lra|].
    rewrite forward_cases.
    rewrite (proj2 (shape_check_true (flat_obs 1 0)) (ex_intro _ 1%nat eq_refl)).
    destruct (range_check_ok (flat_obs 1 0)
                (nonempty_data 1 (flat_obs 1 0) (le_n 1) eq_refl (flat_obs_wf 1 0))
                (flat_obs_range 1 0 ltac:(lra)))
      as [lo [hi [-> [-> ->]]]].
    change (hx (fresh_model 2)) with (Some (zeros (A:=R) 2 lstm_dim)).
    change (cx (fresh_model 2)) with (Some (zeros (A:=R) 2 lstm_dim)).
    rewrite lstm_cell_batch_mismatch; [reflexivity|].
    destruct (features_shape (fresh_model 2) 1 (flat_obs 1 0) eq_refl (flat_obs_wf 1 0))
      as [Hlen _].
    rewrite Hlen. unfold zeros. rewrite repeat_length. lia.
  - split; [apply fresh_model_present|]. split; [reflexivity|].
    split; [apply flat_obs_range; lra|].
    rewrite forward_cases.
    rewrite (proj2 (shape_check_true (flat_obs 0 0)) (ex_intro _ 0%nat eq_refl)).
    reflexivity.
Qed.

(** *** The feature extractor *)

Lemma features_eq_spec (m : ActorCritic R) (inputs : Tensor R) :
  features m inputs = spec_features m inputs.
Proof.
  unfold features, spec_features. now rewrite !stage_spec_stage.
Qed.

(** C7: the feature extractor of [forward] is the four-stage stack of the
    specification (3x3 convolution with stride 1 and padding 1, ReLU, 2x2
    max-pooling; channels 3, 32, 32, 64, 64): although [forward] applies
    the pooling before ReLU, the two orders give the same tensors; on a
    batch of shape (n,3,64,64) the stages have the shapes (32,32,32),
    (32,16,16), (64,8,8) and (64,4,4), and the flattened rows have the 1024
    entries that the recurrent cell takes. *)
Theorem features_refine_spec (m : ActorCritic R) (n : nat) (inputs : Tensor R) :
  shape inputs = [n; 3; 64; 64]%nat -> wf_tensor inputs ->
  features m inputs = spec_features m inputs /\
  (let x1 := spec_stage (conv1 m) maxp1 (batch_of (rescale inputs)) in
   let x2 := spec_stage (conv2 m) maxp2 x1 in
   let x3 := spec_stage (conv3 m) maxp3 x2 in
   let x4 := spec_stage (conv4 m) maxp4 x3 in
   Forall (shape3 32 32 32) x1 /\ Forall (shape3 32 16 16) x2 /\
   Forall (shape3 64 8 8) x3 /\ Forall (shape3 64 4 4) x4) /\
  shape2 n 1024 (spec_features m inputs) /\
  input_size (lstm m) = 1024%nat /\
  map (fun cv => (in_channels cv, out_channels cv, kernel_size cv,
                  stride cv, padding cv))
      [conv1 m; conv2 m; conv3 m; conv4 m] =
    [(3, 32, 3, 1, 1); (32, 32, 3, 1, 1); (32, 64, 3, 1, 1); (64, 64, 3, 1, 1)]%nat /\
  map (fun mp => (pool_kernel mp, pool_stride mp)) [maxp1; maxp2; maxp3; maxp4] =
    [(2, 2); (2, 2); (2, 2); (2, 2)]%nat.
Proof.
  intros Hs Hwf.
  pose proof (stages_shape m n inputs Hs Hwf) as Hst. cbv zeta in Hst.
  rewrite !stage_spec_stage in Hst.
  destruct Hst as [_ [H1 [H2 [H3 H4]]]].
  split; [apply features_eq_spec|].
  split; [cbv zeta; auto|].
  split; [rewrite <- features_eq_spec; now apply features_shape|].
  repeat split.
Qed.

Lemma features_refine_spec_witness :
  features (fresh_model 1) (flat_obs 1 0) =
    spec_features (fresh_model 1) (flat_obs 1 0) /\
  shape2 1 1024 (spec_features (fresh_model 1) (flat_obs 1 0)).
Proof.
  pose proof (features_refine_spec (fresh_model 1) 1 (flat_obs 1 0)
                eq_refl (flat_obs_wf 1 0)) as [He [_ [Hs _]]].
  split; [exact He | exact Hs].
Defined.

(** *** The rescaling before the first convolution *)

Lemma rescale_data (t : Tensor R) :
  data (rescale t) = map (fun v => 2 * v - 1) (data t).
Proof.
  unfold rescale. cbn [data]. apply map_ext. intros v.
  cbn [smul ssub sone of_nat R_Scalar INR]. lra.
Qed.

(** C9: before the first convolution [forward] maps every pixel [v] to
    [2*v - 1]: whenever [forward] returns, the new hidden state and the
    outputs are computed from the convolution stack applied to the rescaled
    batch, whose entries all lie in [-1,1]. *)
Theorem forward_rescales (m m' : ActorCritic R) (inputs : Tensor R)
    (out : ActorCriticOutput R) :
  forward inputs m = (Ok out, m') ->
  data (rescale inputs) = map (fun v => 2 * v - 1) (data inputs) /\
  Forall (fun v => -1 <= v <= 1) (data (rescale inputs)) /\
  (forall img ch row v,
     In img (batch_of (rescale inputs)) -> In ch img -> In row ch -> In v row ->
     -1 <= v <= 1) /\
  exists h c,
    lstm_cell (lstm m)
      (flatten1
         (stage (conv4 m) maxp4
            (stage (conv3 m) maxp3
               (stage (conv2 m) maxp2
                  (stage (conv1 m) maxp1 (batch_of (rescale inputs)))))))
      (hx m) (cx m) = Ok (h, c) /\
    out = heads m h /\ hx m' = Some h /\ cx m' = Some c.
Proof.
  intros Hf. rewrite forward_cases in Hf.
  destruct ((ndim inputs =? 4)%nat && shape_eqb (tl (shape inputs)) [3; 64; 64]%nat);
    [|discriminate].
  destruct (tmin inputs) as [lo|] eqn:Elo; [|discriminate].
  destruct (tmax inputs) as [hi|] eqn:Ehi; [|discriminate].
  destruct (in_range lo hi) eqn:Er; [|discriminate].
  pose proof (range_check_inv inputs lo hi Elo Ehi Er) as Hall.
  assert (Hres : Forall (fun v => -1 <= v <= 1) (data (rescale inputs))).
  { rewrite rescale_data. apply Forall_forall. intros v Hv.
    apply in_map_iff in Hv. destruct Hv as [u [<- Hu]].
    rewrite Forall_forall in Hall. specialize (Hall u Hu). lra. }
  split; [apply rescale_data|]. split; [exact Hres|]. split.
  - intros img ch row v Himg Hch Hrow Hv.
    rewrite Forall_forall in Hres. apply Hres.
    unfold batch_of, view4 in Himg.
    apply in_map_iff in Himg. destruct Himg as [blk [<- Hblk]].
    apply in_map_iff in Hch. destruct Hch as [cb [<- Hcb]].
    eapply chunks_In; [exact Hblk|].
    eapply chunks_In; [exact Hcb|].
    eapply chunks_In; [exact Hrow|exact Hv].
  - unfold features in Hf.
    destruct (lstm_cell _ _ (hx m) (cx m)) as [[h c]|e]; [|discriminate].
    inversion Hf; subst. exists h, c. auto.
Qed.

Lemma forward_rescales_witness :
  exists out m',
    forward (flat_obs 1 0) (fresh_model 1) = (Ok out, m') /\
    Forall (fun v => -1 <= v <= 1) (data (rescale (flat_obs 1 0))).
Proof.
  destruct (forward_succeeds (fresh_model 1) 1 (flat_obs 1 0) (le_n 1) eq_refl
              (flat_obs_wf 1 0) (flat_obs_range 1 0 ltac:(lra))
              (fresh_model_present 1))
    as [out [m' [Hf _]]].
  exists out, m'. split; [exact Hf|].
  exact (proj1 (proj2 (forward_rescales _ _ _ _ Hf))).
Defined.

End ForwardClaims.

(** ** The rollout collector *)

Section RolloutFacts.

Variables E G : Type.
Variable envs_api : Env R E.
Variable draw : G -> list R -> nat * G.

Lemma features_length (m : ActorCritic R) (n : nat) (inputs : Tensor R) :
  shape inputs = [n; 3; 64; 64]%nat -> length (features m inputs) = n.
Proof.
  intros Hs. unfold features, flatten1, batch_of, view4.
  rewrite length_map, !stage_length, length_map, chunks_length.
  rewrite rescale_shape, Hs. reflexivity.
Qed.

Lemma present_unique (m : ActorCritic R) (n k : nat) :
  present n m -> present k m -> n = k.
Proof.
  intros [h [c [Hh [_ [[Hn _] _]]]]] [h' [c' [Hh' [_ [[Hk _] _]]]]].
  rewrite Hh in Hh'. inversion Hh'; subst. reflexivity.
Qed.

(** What a call of [forward] that returns tells about its input. *)
Lemma forward_inv (m m' : ActorCritic R) (n : nat) (inputs : Tensor R)
    (out : ActorCriticOutput R) :
  forward inputs m = (Ok out, m') -> present n m ->
  shape inputs = [n; 3; 64; 64]%nat /\
  Forall (fun v => (0 <= v <= 1)%R) (data inputs) /\
  shape3 n 1 7 (logits_actions0 out) /\
  shape3 n 1 7 (logits_actions1 out) /\
  shape3 n 1 1 (means_values out) /\
  present n m' /\ weights m' = weights m.
Proof.
  intros Hf Hp. rewrite forward_cases in Hf.
  destruct ((ndim inputs =? 4)%nat && shape_eqb (tl (shape inputs)) [3; 64; 64]%nat)
    eqn:Es; [|discriminate].
  apply shape_check_true in Es. destruct Es as [k Hs].
  destruct (tmin inputs) as [lo|] eqn:Elo; [|discriminate].
  destruct (tmax inputs) as [hi|] eqn:Ehi; [|discriminate].
  destruct (in_range lo hi) eqn:Er; [|discriminate].
  pose proof (range_check_inv inputs lo hi Elo Ehi Er) as Hall.
  destruct (lstm_cell (lstm m) (features m inputs) (hx m) (cx m))
    as [[h c]|e] eqn:El; [|discriminate].
  inversion Hf; subst out m'. clear Hf.
  apply lstm_cell_inv in El.
  destruct El as [h0 [c0 [Hh0 [Hc0 [_ [Sh0 [Sc0 [Sh Sc]]]]]]]].
  rewrite (features_length m k inputs Hs) in *.
  assert (Hk : present k m) by (exists h0, c0; auto).
  pose proof (present_unique m n k Hp Hk) as ->.
  destruct (heads_shape m k h (proj1 Sh)) as [H0 [H1 H2]].
  repeat split; auto; try apply H0; try apply H1; try apply H2.
  exists h, c. auto.
Qed.

Lemma draws_length {X Y : Type} (f : G -> X -> Y * G) (l : list X) (g : G) :
  length (fst (draws f l g)) = length l.
Proof.
  revert g. induction l as [|x l IH]; intros g; simpl; [reflexivity|].
  destruct (f g x) as [y g1]. specialize (IH g1).
  destruct (draws f l g1) as [ys g2]. simpl in *. now rewrite IH.
Qed.

Lemma draws_In {X Y : Type} (f : G -> X -> Y * G) (l : list X) (g : G) (y : Y) :
  In y (fst (draws f l g)) -> exists x g', In x l /\ y = fst (f g' x).
Proof.
  revert g. induction l as [|x l IH]; intros g; simpl; [tauto|].
  destruct (f g x) as [y0 g1] eqn:Ef. specialize (IH g1).
  destruct (draws f l g1) as [ys g2]. simpl in *.
  intros [<-|Hy].
  - exists x, g. rewrite Ef. auto.
  - destruct (IH Hy) as [x' [g' [Hx' ->]]]. exists x', g'. auto.
Qed.

Lemma sample_shape (n k : nat) (logits : list (matrix R)) (w : World R E G) :
  shape3 n 1 k logits ->
  exists a g,
    sample draw logits w = (Ok a, mkWorld (actor0 w) (envs w) g) /\
    shape2 n 1 a.
Proof.
  intros Hl. unfold sample.
  destruct (draws (fun g row => draws draw row g) logits (generator w))
    as [a g] eqn:Ed.
  exists a, g. split; [reflexivity|].
  assert (Ha : a = fst (draws (fun g row => draws draw row g) logits (generator w)))
    by now rewrite Ed.
  apply shape2_intro.
  - rewrite Ha, draws_length. apply Hl.
  - intros r Hr. rewrite Ha in Hr. apply draws_In in Hr.
    destruct Hr as [row [g' [Hrow ->]]].
    rewrite draws_length. apply (shape3_entry Hl Hrow).
Qed.

(** One iteration that goes through, from a state present for [n]. *)
Lemma iteration_inv (n : nat) (obss0 : Tensor R) (w w1 : World R E G)
    (out : ActorCriticOutput R) (a0 a1 : matrix nat) (st : StepResult R) :
  iteration envs_api draw obss0 w = (Ok (out, a0, a1, st), w1) ->
  present n (actor0 w) ->
  shape obss0 = [n; 3; 64; 64]%nat /\
  Forall (fun v => (0 <= v <= 1)%R) (data obss0) /\
  shape3 n 1 7 (logits_actions0 out) /\
  shape3 n 1 7 (logits_actions1 out) /\
  shape3 n 1 1 (means_values out) /\
  shape2 n 1 a0 /\ shape2 n 1 a1 /\
  stepped envs_api st /\
  present n (actor0 w1).
Proof.
  intros Hi Hp. unfold iteration, bind, on_actor, ret in Hi.
  destruct (forward obss0 (actor0 w)) as [[o|e] m'] eqn:Ef; [|discriminate].
  destruct (forward_inv _ _ n _ _ Ef Hp) as [Hs [Hr [H0 [H1 [H2 [Hp' _]]]]]].
  destruct (sample_shape n 7 (logits_actions0 o)
              (mkWorld m' (envs w) (generator w)) H0) as [b0 [g0 [E0 S0]]].
  rewrite E0 in Hi. cbn [actor0 envs generator] in Hi.
  destruct (sample_shape n 7 (logits_actions1 o)
              (mkWorld m' (envs w) g0) H1) as [b1 [g1 [E1 S1]]].
  rewrite E1 in Hi. cbn [actor0 envs generator] in Hi.
  unfold envs_step in Hi. cbn [actor0 envs generator] in Hi.
  destruct (env_step envs_api (envs w) (zip_with (@app nat) b0 b1))
    as [st' e'] eqn:Est.
  inversion Hi; subst. clear Hi.
  split; [exact Hs|]. split; [exact Hr|]. split; [exact H0|].
  split; [exact H1|]. split; [exact H2|]. split; [exact S0|].
  split; [exact S1|]. split; [|exact Hp'].
  exists (envs w), (zip_with (@app nat) a0 a1). now rewrite Est.
Qed.

Lemma rollout_loop_S (k : nat) (obss0 : Tensor R) (r : Records R) (w : World R E G) :
  rollout_loop envs_api draw (S k) obss0 r w =
  match iteration envs_api draw obss0 w with
  | (Ok (out, a0, a1, st), w1) =>
    let r' := append_records r (step_records obss0 out a0 a1 st) in
    if existsb (fun d => d) (dones st)
    then if forallb (fun d => d) (dones st)
         then (Ok r', w1) else (Raise AssertionError, w1)
    else rollout_loop envs_api draw k (obs0 st) r' w1
  | (Raise e, w1) => (Raise e, w1)
  end.
Proof.
  cbn [rollout_loop]. unfold iteration, bind, ret.
  destruct (on_actor (forward obss0) w) as [[o|e] w0]; [|reflexivity].
  destruct (sample draw (logits_actions0 o) w0) as [[b0|e] w2]; [|reflexivity].
  destruct (sample draw (logits_actions1 o) w2) as [[b1|e] w3]; [|reflexivity].
  destruct (envs_step envs_api (zip_with (@app nat) b0 b1) w3) as [[st|e] w4];
    [|reflexivity].
  cbv zeta.
  destruct (existsb (fun d => d) (dones st)); [|reflexivity].
  unfold assert. destruct (forallb (fun d => d) (dones st)); reflexivity.
Qed.

Lemma append_no_records (r : Records R) : append_records r no_records = r.
Proof.
  destruct r. unfold append_records, no_records. cbn. now rewrite !app_nil_r.
Qed.

Lemma append_records_assoc (r s t : Records R) :
  append_records (append_records r s) t = append_records r (append_records s t).
Proof.
  unfold append_records. cbn. now rewrite <- !app_assoc.
Qed.

Lemma segment_empty (n : nat) : segment envs_api n 0 0 no_records.
Proof.
  constructor; cbn; auto; try lia.
  unfold count_is. cbn. tauto.
Qed.

Lemma no_flag_column (ds : list bool) :
  existsb (fun d => d) ds = false ->
  Forall (fun row => row = [false]) (column ds).
Proof.
  intros He. apply Forall_forall. intros row Hrow.
  apply in_map_iff in Hrow. destruct Hrow as [d [<- Hd]].
  destruct d; [|reflexivity].
  assert (existsb (fun d => d) ds = true) by (apply existsb_exists; eauto).
  congruence.
Qed.

Lemma all_flags_column (ds : list bool) :
  forallb (fun d => d) ds = true ->
  Forall (fun row => row = [true]) (column ds).
Proof.
  intros Ha. apply Forall_forall. intros row Hrow.
  apply in_map_iff in Hrow. destruct Hrow as [d [<- Hd]].
  rewrite forallb_forall in Ha. now rewrite (Ha d Hd).
Qed.

Section OneIteration.

Variables (n : nat) (obss0 : Tensor R) (out : ActorCriticOutput R).
Variables (a0 a1 : matrix nat) (st : StepResult R).

Hypothesis Hobs : accepted envs_api n obss0.
Hypothesis Hl0 : shape3 n 1 7 (logits_actions0 out).
Hypothesis Hl1 : shape3 n 1 7 (logits_actions1 out).
Hypothesis Hv : shape3 n 1 1 (means_values out).
Hypothesis Ha0 : shape2 n 1 a0.
Hypothesis Ha1 : shape2 n 1 a1.
Hypothesis Hst : stepped envs_api st.

(** The loop stops after this iteration. *)
Lemma segment_last (k : nat) :
  (0 < k -> forallb (fun d => d) (dones st) = true) ->
  segment envs_api n (S k) 1 (step_records obss0 out a0 a1 st).
Proof.
  intros Hall. constructor; cbn; auto; try lia.
  - unfold count_is. cbn. tauto.
  - constructor; [|constructor]. exists st. auto.
  - constructor; [|constructor]. exists st. auto.
  - intros Hk. apply all_flags_column, Hall. lia.
Qed.

(** The loop goes on after this iteration. *)
Lemma segment_more (k j : nat) (s : Records R) :
  existsb (fun d => d) (dones st) = false ->
  segment envs_api n k j s ->
  segment envs_api n (S k) (S j)
    (append_records (step_records obss0 out a0 a1 st) s).
Proof.
  intros Hnone Hs.
  destruct Hs as [[Hj1 Hj2] Hc Ho S0 S1 L0 L1 Vs Rw En Run Stop].
  destruct Hc as [C1 [C2 [C3 [C4 [C5 [C6 [C7 C8]]]]]]].
  constructor; cbn.
  - lia.
  - unfold count_is. cbn. repeat split; lia.
  - constructor; auto.
  - constructor; auto.
  - constructor; auto.
  - constructor; auto.
  - constructor; auto.
  - constructor; auto.
  - constructor; auto. exists st. auto.
  - constructor; auto. exists st. auto.
  - destruct (all_ends s) as [|c l] eqn:El; [constructor|].
    constructor; [now apply no_flag_column|exact Run].
  - intros Hlt.
    destruct (all_ends s) as [|c l] eqn:El.
    + cbn in C8. lia.
    + apply Stop. lia.
Qed.

End OneIteration.

(** The loop invariant of [batch_rollout]. *)
Lemma rollout_loop_inv (n steps : nat) :
  forall (obss0 : Tensor R) (r r' : Records R) (w w' : World R E G),
  rollout_loop envs_api draw steps obss0 r w = (Ok r', w') ->
  present n (actor0 w) ->
  (exists st, stepped envs_api st /\ obss0 = obs0 st) ->
  exists j s,
    r' = append_records r s /\ segment envs_api n steps j s /\
    present n (actor0 w').
Proof.
  induction steps as [|k IH]; intros obss0 r r' w w' Hloop Hp Hfrom.
  - cbn in Hloop. inversion Hloop; subst.
    exists 0%nat, no_records. split; [now rewrite append_no_records|].
    split; [apply segment_empty|exact Hp].
  - rewrite rollout_loop_S in Hloop.
    destruct (iteration envs_api draw obss0 w) as [[[[[out a0] a1] st]|e] w1] eqn:Ei;
      [|discriminate].
    destruct (iteration_inv n _ _ _ _ _ _ _ Ei Hp)
      as [Hs [Hr [H0 [H1 [H2 [S0 [S1 [Hst Hp1]]]]]]]].
    assert (Hacc : accepted envs_api n obss0) by (split; [|split]; auto).
    cbv zeta in Hloop.
    destruct (existsb (fun d => d) (dones st)) eqn:Eany.
    + destruct (forallb (fun d => d) (dones st)) eqn:Eall; [|discriminate].
      inversion Hloop; subst. exists 1%nat, (step_records obss0 out a0 a1 st).
      split; [reflexivity|]. split; [|exact Hp1].
      apply segment_last; auto.
    + destruct (IH _ _ _ _ _ Hloop Hp1 (ex_intro _ st (conj Hst eq_refl)))
        as [j [s [Hr' [Hseg Hp']]]].
      exists (S j), (append_records (step_records obss0 out a0 a1 st) s).
      split; [rewrite Hr'; apply append_records_assoc|].
      split; [|exact Hp'].
      apply segment_more; auto.
Qed.

Lemma append_to_no_records (s : Records R) : append_records no_records s = s.
Proof. destruct s. reflexivity. Qed.

(** What a call of [batch_rollout] that returns has done. *)
Lemma batch_rollout_inv (w w' : World R E G) (out : RolloutOutput R) :
  batch_rollout envs_api draw w = (Ok out, w') ->
  exists j s,
    segment envs_api (env_n envs_api (envs w)) horizon j s /\
    out = rollout_output s /\ absent (actor0 w').
Proof.
  unfold batch_rollout, bind, envs_n, on_actor, reset, envs_reset, envs_step,
    clear, ret.
  cbn [actor0 envs generator].
  destruct (env_step envs_api (env_reset envs_api (envs w))
              (repeat [0; 0] (env_n envs_api (envs w)))) as [st e1] eqn:Est.
  match goal with
  | |- context [rollout_loop ?a ?d ?s ?o ?r ?x] =>
    destruct (rollout_loop a d s o r x) as [[r'|e] w1] eqn:El
  end; [|discriminate].
  intros Hout. inversion Hout; subst. clear Hout.
  apply (rollout_loop_inv (env_n envs_api (envs w))) in El.
  - destruct El as [j [s [Hr [Hseg _]]]].
    exists j, s. rewrite Hr, append_to_no_records.
    split; [exact Hseg|]. split; [reflexivity|]. split; reflexivity.
  - cbn [actor0].
    exists (zeros (env_n envs_api (envs w)) lstm_dim),
           (zeros (env_n envs_api (envs w)) lstm_dim).
    split; [reflexivity|]. split; [reflexivity|]. split; apply zeros_shape.
  - exists st. split; [|reflexivity].
    exists (env_reset envs_api (envs w)),
           (repeat [0%nat; 0%nat] (env_n envs_api (envs w))).
    now rewrite Est.
Qed.

(** *** Progress under the contract of the environment *)

Lemma iteration_ok (n : nat) (obss0 : Tensor R) (w : World R E G) :
  1 <= n -> present n (actor0 w) ->
  shape obss0 = [n; 3; 64; 64] -> wf_tensor obss0 ->
  Forall (fun v => (0 <= v <= 1)%R) (data obss0) ->
  exists out a0 a1 st w1,
    iteration envs_api draw obss0 w = (Ok (out, a0, a1, st), w1).
Proof.
  intros Hn Hp Hs Hwf Hr. unfold iteration, bind, on_actor, ret.
  destruct (forward_succeeds (actor0 w) n obss0 Hn Hs Hwf Hr Hp)
    as [out [m' [Hf [H0 [H1 _]]]]].
  rewrite Hf.
  destruct (sample_shape n 7 (logits_actions0 out)
              (mkWorld m' (envs w) (generator w)) H0) as [b0 [g0 [E0 _]]].
  rewrite E0.
  destruct (sample_shape n 7 (logits_actions1 out)
              (mkWorld (actor0 (mkWorld m' (envs w) (generator w)))
                       (envs (mkWorld m' (envs w) (generator w))) g0) H1)
    as [b1 [g1 [E1 _]]].
  rewrite E1. unfold envs_step.
  destruct (env_step envs_api _ _) as [st e'].
  do 5 eexists. reflexivity.
Qed.

(** With observations that [forward] accepts, the loop can only end by
    returning or on the assertion of line 163, raised by flags that are
    neither all down nor all up. *)
Lemma rollout_loop_total (n steps : nat) :
  1 <= n -> env_valid envs_api n ->
  forall (obss0 : Tensor R) (r : Records R) (w : World R E G),
  present n (actor0 w) ->
  (exists st, stepped envs_api st /\ obss0 = obs0 st) ->
  (exists r' w', rollout_loop envs_api draw steps obss0 r w = (Ok r', w')) \/
  (exists w' st,
     rollout_loop envs_api draw steps obss0 r w = (Raise AssertionError, w') /\
     stepped envs_api st /\
     existsb (fun d => d) (dones st) = true /\
     forallb (fun d => d) (dones st) = false).
Proof.
  intros Hn Hvalid.
  induction steps as [|k IH]; intros obss0 r w Hp [st0 [Hst0 ->]].
  - left. exists r, w. reflexivity.
  - rewrite rollout_loop_S.
    destruct (Hvalid st0 Hst0) as [Hs [Hwf Hr]].
    destruct (iteration_ok n (obs0 st0) w Hn Hp Hs Hwf Hr)
      as [out [a0 [a1 [st [w1 Hi]]]]].
    rewrite Hi. cbv zeta.
    destruct (iteration_inv n _ _ _ _ _ _ _ Hi Hp)
      as [_ [_ [_ [_ [_ [_ [_ [Hst Hp1]]]]]]]].
    destruct (existsb (fun d => d) (dones st)) eqn:Eany.
    + destruct (forallb (fun d => d) (dones st)) eqn:Eall.
      * left. eexists. eexists. reflexivity.
      * right. exists w1, st. auto.
    + apply IH; [exact Hp1|]. exists st. auto.
Qed.

Lemma batch_rollout_total (w : World R E G) :
  1 <= env_n envs_api (envs w) ->
  env_valid envs_api (env_n envs_api (envs w)) ->
  (exists out w', batch_rollout envs_api draw w = (Ok out, w')) \/
  (exists w' st,
     batch_rollout envs_api draw w = (Raise AssertionError, w') /\
     stepped envs_api st /\
     existsb (fun d => d) (dones st) = true /\
     forallb (fun d => d) (dones st) = false).
Proof.
  intros Hn Hvalid.
  unfold batch_rollout, bind, envs_n, on_actor, reset, envs_reset, envs_step,
    clear, ret.
  cbn [actor0 envs generator].
  destruct (env_step envs_api (env_reset envs_api (envs w))
              (repeat [0; 0] (env_n envs_api (envs w)))) as [st e1] eqn:Est.
  match goal with
  | |- context [rollout_loop ?a ?d ?s ?o ?r ?x] =>
    destruct (rollout_loop_total (env_n envs_api (envs w)) s Hn Hvalid o r x)
      as [[r' [w1 Hl]] | [w1 [st1 [Hl Hpart]]]]
  end.
  - cbn [actor0].
    exists (zeros (env_n envs_api (envs w)) lstm_dim),
           (zeros (env_n envs_api (envs w)) lstm_dim).
    split; [reflexivity|]. split; [reflexivity|]. split; apply zeros_shape.
  - exists st. split; [|reflexivity].
    exists (env_reset envs_api (envs w)),
           (repeat [0%nat; 0%nat] (env_n envs_api (envs w))).
    now rewrite Est.
  - left. rewrite Hl. eexists. eexists. reflexivity.
  - right. rewrite Hl. exists w1, st1. auto.
Qed.

(** With an environment whose instances terminate together the collector
    returns. *)
Lemma batch_rollout_returns (w : World R E G) :
  1 <= env_n envs_api (envs w) ->
  env_valid envs_api (env_n envs_api (envs w)) -> env_lockstep envs_api ->
  exists out w', batch_rollout envs_api draw w = (Ok out, w').
Proof.
  intros Hn Hvalid Hlock.
  destruct (batch_rollout_total w Hn Hvalid) as [Hok | [w' [st [_ [Hst [Hany Hall]]]]]];
    [exact Hok|].
  rewrite (Hlock st Hst Hany) in Hall. discriminate.
Qed.

End RolloutFacts.

(** ** What [batch_rollout] returns *)

Lemma to_byte_unit (v : R) :
  (0 <= v <= 1)%R ->
  to_byte v = Int_part (v * 255) /\ (0 <= to_byte v <= 255)%Z.
Proof.
  intros Hv. unfold to_byte. cbn [trunc smul of_nat R_Scalar].
  replace (INR 255) with 255%R by (rewrite INR_IZR_INZ; reflexivity).
  assert (Hx : (0 <= v * 255 <= 255)%R) by lra.
  unfold Rtrunc. destruct (Rle_dec 0 (v * 255)) as [_|Hn]; [|lra].
  destruct (base_Int_part (v * 255)) as [Hlo Hhi].
  assert (H0 : (0 <= Int_part (v * 255))%Z).
  { assert (Hlt : (IZR (-1) < IZR (Int_part (v * 255)))%R) by lra.
    apply lt_IZR in Hlt. lia. }
  assert (H1 : (Int_part (v * 255) <= 255)%Z).
  { apply le_IZR. lra. }
  rewrite Z.mod_small by lia. split; [reflexivity|lia].
Qed.

Lemma column_shape {X : Type} (l : list X) : shape2 (length l) 1 (column l).
Proof.
  unfold column. apply shape2_intro; [apply length_map|].
  intros r Hr. apply in_map_iff in Hr. destruct Hr as [x [<- _]]. reflexivity.
Qed.

Lemma last_In {X : Type} (l : list X) (d : X) : l <> [] -> In (last l d) l.
Proof.
  intros Hne. rewrite (app_removelast_last d Hne) at 2.
  apply in_or_app. right. now left.
Qed.

Lemma stack_dim1_shape {X : Type} (n : nat) (sh : list nat) (ts : list (Tensor X)) :
  ts <> [] -> Forall (fun t => shape t = n :: sh) ts ->
  shape (stack_dim1 ts) = n :: length ts :: sh.
Proof.
  intros Hne Hall. destruct ts as [|t ts]; [contradiction|].
  inversion Hall as [|? ? Ht _]; subst.
  unfold stack_dim1. cbn [shape nth]. rewrite Ht. reflexivity.
Qed.

Lemma stack_dim1_data_length {X : Type} (n : nat) (sh : list nat)
    (ts : list (Tensor X)) :
  ts <> [] -> Forall (fun t => shape t = n :: sh /\ wf_tensor t) ts ->
  length (data (stack_dim1 ts)) = n * (length ts * numel sh).
Proof.
  intros Hne Hall.
  assert (Hs : shape (nth 0 ts (mkTensor [] [])) = n :: sh).
  { destruct ts as [|t ts]; [contradiction|].
    inversion Hall as [|? ? [Ht _] _]; subst. exact Ht. }
  unfold stack_dim1. cbn [data]. rewrite Hs. cbn [nth tl].
  rewrite (flat_map_length_uniform (length ts * numel sh)).
  - now rewrite length_seq.
  - intros b Hb. apply in_seq in Hb.
    apply flat_map_length_uniform. intros t Ht.
    rewrite Forall_forall in Hall. destruct (Hall t Ht) as [Hsh Hwf].
    unfold wf_tensor in Hwf. rewrite Hsh in Hwf. cbn [numel fold_right] in Hwf.
    pose proof (chunks_full X (numel sh) n (data t)) as Hf.
    rewrite Forall_forall in Hf. apply Hf.
    + unfold numel. lia.
    + apply nth_In. rewrite chunks_length. lia.
Qed.

Lemma stack_dim1_In {X : Type} (ts : list (Tensor X)) (x : X) :
  In x (data (stack_dim1 ts)) -> exists t, In t ts /\ In x (data t).
Proof.
  unfold stack_dim1. cbn [data]. intros Hx.
  apply in_flat_map in Hx. destruct Hx as [b [_ Hx]].
  apply in_flat_map in Hx. destruct Hx as [t [Ht Hx]].
  exists t. split; [exact Ht|].
  match type of Hx with
  | In _ (nth ?b ?l []) => destruct (nth_in_or_default b l []) as [Hin|Hd]
  end.
  - eapply chunks_In; eassumption.
  - rewrite Hd in Hx. destruct Hx.
Qed.

Section RolloutClaims.

Variables E G : Type.
Variable envs_api : Env R E.
Variable draw : G -> list R -> nat * G.

Lemma horizon_bound (j : nat) :
  j <= horizon /\ (1 <= horizon -> 1 <= j) -> 1 <= j <= 200.
Proof. unfold horizon. lia. Qed.


(** C5: the hidden state moves between absent and present(n): [clear]
    leaves it absent and [reset(n)] leaves it present(n) from any state; a
    call of [forward] that returns found it present(n) for some n and
    leaves it present(n); with the state absent [forward] raises and leaves
    the module as it was; [reset(n)] then [clear] leaves it absent; a
    rollout that returns leaves it absent. *)
Theorem hidden_state_machine :
  (forall m : ActorCritic R, absent (snd (clear m))) /\
  (forall (m : ActorCritic R) n, present n (snd (reset n m))) /\
  (forall (m m' : ActorCritic R) inputs out,
     forward inputs m = (Ok out, m') -> exists n, present n m /\ present n m') /\
  (forall (m : ActorCritic R) inputs,
     absent m -> exists e, forward inputs m = (Raise e, m)) /\
  (forall (m : ActorCritic R) n, absent (snd (clear (snd (reset n m))))) /\
  (forall (w w' : World R E G) out,
     batch_rollout envs_api draw w = (Ok out, w') -> absent (actor0 w')).
Proof.
  split; [intros m; split; reflexivity|].
  split.
  { intros m n. exists (zeros n lstm_dim), (zeros n lstm_dim).
    split; [reflexivity|]. split; [reflexivity|]. split; apply zeros_shape. }
  split.
  { intros m m' inputs out Hf. rewrite forward_cases in Hf.
    destruct ((ndim inputs =? 4) && shape_eqb (tl (shape inputs)) [3; 64; 64]);
      [|discriminate].
    destruct (tmin inputs) as [lo|]; [|discriminate].
    destruct (tmax inputs) as [hi|]; [|discriminate].
    destruct (in_range lo hi); [|discriminate].
    destruct (lstm_cell (lstm m) (features m inputs) (hx m) (cx m))
      as [[h c]|e] eqn:El; [|discriminate].
    inversion Hf; subst. apply lstm_cell_inv in El.
    destruct El as [h0 [c0 [Hh0 [Hc0 [_ [Sh0 [Sc0 [Sh Sc]]]]]]]].
    exists (length (features m inputs)). split.
    - exists h0, c0. auto.
    - exists h, c. auto. }
  split.
  { intros m inputs [Hh Hc]. rewrite forward_cases.
    destruct ((ndim inputs =? 4) && shape_eqb (tl (shape inputs)) [3; 64; 64]);
      [|eexists; reflexivity].
    destruct (tmin inputs) as [lo|]; [|eexists; reflexivity].
    destruct (tmax inputs) as [hi|]; [|eexists; reflexivity].
    destruct (in_range lo hi); [|eexists; reflexivity].
    rewrite lstm_cell_absent by (now left). eexists; reflexivity. }
  split; [intros m n; split; reflexivity|].
  intros w w' out Hb.
  destruct (batch_rollout_inv _ _ _ _ _ _ _ Hb) as [j [s [_ [_ Ha]]]]. exact Ha.
Qed.


End RolloutClaims.

(** *** A run of the collector *)

Lemma scripted_stepped (flags : nat -> list bool) (st : StepResult R) :
  stepped (scripted_env flags) st ->
  obs0 st = flat_obs 4 (1 / 2) /\ length (step_rewards st) = 4 /\
  exists e, dones st = flags e.
Proof.
  intros [e [acts <-]]. unfold scripted_env, scripted_step, scripted_result.
  cbn [env_step fst obs0 step_rewards dones length].
  split; [reflexivity|]. split; [reflexivity|]. now exists e.
Qed.

Lemma scripted_env_valid (flags : nat -> list bool) :
  env_valid (scripted_env flags) 4.
Proof.
  intros st Hst. destruct (scripted_stepped flags st Hst) as [-> _].
  split; [reflexivity|]. split; [apply flat_obs_wf|].
  apply flat_obs_range. lra.
Qed.

Lemma demo_env_lockstep : env_lockstep demo_env.
Proof.
  intros st Hst. destruct (scripted_stepped _ st Hst) as [_ [_ [e ->]]].
  unfold demo_flags. destruct (5 <=? e); cbn; auto.
Qed.

Lemma demo_env_contract : env_contract demo_env 4.
Proof.
  intros st Hst. destruct (scripted_stepped _ st Hst) as [Ho [Hr [e Hd]]].
  split; [exact Hr|]. split.
  - rewrite Hd. unfold demo_flags. destruct (5 <=? e); reflexivity.
  - rewrite Ho. apply flat_obs_wf.
Qed.

Lemma demo_rollout_returns :
  exists out w', batch_rollout demo_env demo_draw demo_world = (Ok out, w').
Proof.
  apply batch_rollout_returns.
  - cbn. lia.
  - apply scripted_env_valid.
  - exact demo_env_lockstep.
Qed.


Lemma hidden_state_machine_witness :
  absent (snd (clear (snd (reset 3 (init zero_weights))))) /\
  (exists out m',
     forward (flat_obs 1 0) (fresh_model 1) = (Ok out, m') /\
     present 1 m') /\
  (exists out w',
     batch_rollout demo_env demo_draw demo_world = (Ok out, w') /\
     absent (actor0 w')).
Proof.
  destruct (hidden_state_machine nat unit demo_env demo_draw)
    as [_ [_ [Hfw [_ [Hrc Hroll]]]]].
  split; [apply Hrc|]. split.
  - destruct (forward_succeeds (fresh_model 1) 1 (flat_obs 1 0) (le_n 1) eq_refl
                (flat_obs_wf 1 0) (flat_obs_range 1 0 ltac:(lra))
                (fresh_model_present 1))
      as [out [m' [Hf _]]].
    exists out, m'. split; [exact Hf|].
    destruct (Hfw _ _ _ _ Hf) as [n [Hp Hp']].
    now rewrite (present_unique _ _ _ (fresh_model_present 1) Hp).
  - destruct demo_rollout_returns as [out [w' Hb]].
    exists out, w'. split; [exact Hb|]. exact (Hroll _ _ _ Hb).
Defined.


(** *** Two runs: termination of all four instances at step 5, and of three
    of them only *)

Section ScriptedRuns.

Variable flags : nat -> list bool.

Lemma scripted_iteration (w : World R nat unit) :
  present 4 (actor0 w) ->
  exists out a0 a1 m',
    iteration (scripted_env flags) demo_draw (flat_obs 4 (1 / 2)) w =
      (Ok (out, a0, a1, scripted_result flags (envs w)), mkWorld m' (S (envs w)) tt) /\
    present 4 m'.
Proof.
  intros Hp. unfold iteration, bind, on_actor, ret.
  destruct (forward_succeeds (actor0 w) 4 (flat_obs 4 (1 / 2)) ltac:(lia) eq_refl
              (flat_obs_wf 4 (1 / 2)) (flat_obs_range 4 (1 / 2) ltac:(lra)) Hp)
    as [out [m' [Hf [H0 [H1 [_ [Hp' _]]]]]]].
  rewrite Hf.
  destruct (sample_shape nat unit demo_draw 4 7 (logits_actions0 out)
              (mkWorld m' (envs w) (generator w)) H0) as [b0 [g0 [E0 _]]].
  rewrite E0.
  destruct (sample_shape nat unit demo_draw 4 7 (logits_actions1 out)
              (mkWorld (actor0 (mkWorld m' (envs w) (generator w)))
                       (envs (mkWorld m' (envs w) (generator w))) g0) H1)
    as [b1 [g1 [E1 _]]].
  rewrite E1. unfold envs_step. cbn. destruct g1.
  exists out, b0, b1, m'. split; [reflexivity|exact Hp'].
Qed.

(** The loop on a script that stays quiet for [k] steps and then raises
    some flag. *)
Lemma scripted_loop (k : nat) :
  forall (steps : nat) (r : Records R) (w : World R nat unit),
  k < steps -> present 4 (actor0 w) ->
  (forall i, i < k -> flags (envs w + i) = quiet) ->
  existsb (fun d => d) (flags (envs w + k)) = true ->
  if forallb (fun d => d) (flags (envs w + k))
  then exists r' w',
         rollout_loop (scripted_env flags) demo_draw steps
           (flat_obs 4 (1 / 2)) r w = (Ok r', w') /\
         all_ends r' =
           all_ends r ++ repeat (column quiet) k ++ [column (flags (envs w + k))]
  else exists w',
         rollout_loop (scripted_env flags) demo_draw steps
           (flat_obs 4 (1 / 2)) r w = (Raise AssertionError, w') /\
         present 4 (actor0 w').
Proof.
  induction k as [|k IH]; intros steps r w Hk Hp Hquiet Hany.
  - destruct steps as [|s]; [lia|].
    rewrite rollout_loop_S.
    destruct (scripted_iteration w Hp) as [out [a0 [a1 [m' [-> Hp']]]]].
    cbv zeta. cbn [dones scripted_result].
    rewrite Nat.add_0_r in *. rewrite Hany.
    destruct (forallb (fun d => d) (flags (envs w))).
    + eexists. eexists. split; reflexivity.
    + eexists. split; [reflexivity|exact Hp'].
  - destruct steps as [|s]; [lia|].
    rewrite rollout_loop_S.
    destruct (scripted_iteration w Hp) as [out [a0 [a1 [m' [-> Hp']]]]].
    cbv zeta. cbn [dones scripted_result obs0].
    pose proof (Hquiet 0 ltac:(lia)) as H0. rewrite Nat.add_0_r in H0.
    rewrite H0. cbn [existsb quiet orb].
    specialize (IH s
      (append_records r
         (step_records (flat_obs 4 (1 / 2)) out a0 a1 (scripted_result flags (envs w))))
      (mkWorld m' (S (envs w)) tt) ltac:(lia) Hp').
    cbn [envs actor0] in IH.
    replace (envs w + S k) with (S (envs w) + k) by lia.
    assert (Hq : forall i, i < k -> flags (S (envs w) + i) = quiet).
    { intros i Hi. replace (S (envs w) + i) with (envs w + S i) by lia.
      apply Hquiet. lia. }
    replace (envs w + S k) with (S (envs w) + k) in Hany by lia.
    specialize (IH Hq Hany).
    destruct (forallb (fun d => d) (flags (S (envs w) + k))).
    + destruct IH as [r' [w' [Hl He]]]. exists r', w'. split; [exact Hl|].
      rewrite He. cbn [all_ends append_records step_records dones scripted_result].
      rewrite H0, <- app_assoc. reflexivity.
    + exact IH.
Qed.

End ScriptedRuns.

(** The scenario of the specification: four environments that all terminate
    at step 5 give a rollout of exactly five steps whose last column of
    flags is all true, and the module is left without hidden state. *)
Lemma five_step_rollout :
  exists out w',
    batch_rollout demo_env demo_draw demo_world = (Ok out, w') /\
    ends out = repeat [false; false; false; false; true] 4 /\
    absent (actor0 w').
Proof.
  unfold batch_rollout, bind, envs_n, on_actor, reset, envs_reset, envs_step,
    clear, ret.
  cbn [actor0 envs generator demo_world demo_env scripted_env env_n env_reset
       env_step scripted_step scripted_result fst snd obs0].
  pose proof (scripted_loop demo_flags 4 horizon no_records
                (mkWorld (mkActorCritic (weights (init zero_weights))
                            (Some (zeros 4 lstm_dim)) (Some (zeros 4 lstm_dim)))
                         1 tt)
                ltac:(unfold horizon; lia) (fresh_model_present 4)) as Hrun.
  cbn [envs] in Hrun.
  specialize (Hrun ltac:(intros i Hi; do 4 (destruct i as [|i]; [reflexivity|]); lia)
                   eq_refl).
  cbn [Nat.add demo_flags Nat.leb forallb andb] in Hrun.
  destruct Hrun as [r' [w' [Hl He]]].
  fold demo_env in Hl. rewrite Hl.
  eexists. eexists. split; [reflexivity|].
  change (ends (rollout_output r')) with (cat_dim1 (all_ends r')).
  rewrite He. split; [reflexivity|split; reflexivity].
Qed.

(** When only three of the four report termination at that step the
    rollout raises the assertion, and the hidden state stays in the
    module. *)
Lemma partial_termination_raises :
  exists w',
    batch_rollout partial_env demo_draw demo_world = (Raise AssertionError, w') /\
    present 4 (actor0 w').
Proof.
  unfold batch_rollout, bind, envs_n, on_actor, reset, envs_reset, envs_step,
    clear, ret.
  cbn [actor0 envs generator demo_world partial_env scripted_env env_n env_reset
       env_step scripted_step scripted_result fst snd obs0].
  pose proof (scripted_loop partial_flags 4 horizon no_records
                (mkWorld (mkActorCritic (weights (init zero_weights))
                            (Some (zeros 4 lstm_dim)) (Some (zeros 4 lstm_dim)))
                         1 tt)
                ltac:(unfold horizon; lia) (fresh_model_present 4)) as Hrun.
  cbn [envs] in Hrun.
  specialize (Hrun ltac:(intros i Hi; do 4 (destruct i as [|i]; [reflexivity|]); lia)
                   eq_refl).
  cbn [Nat.add partial_flags Nat.leb forallb andb] in Hrun.
  destruct Hrun as [w' [Hl Hp]].
  fold partial_env in Hl. rewrite Hl.
  exists w'. split; [reflexivity|exact Hp].
Qed.

(** ** The loss composer *)

Lemma shape3_shape2 {X : Type} (n k j : nat) (t : list (matrix X)) :
  shape3 n k j t -> shape2 n k t.
Proof.
  intros [Hn Ht]. split; [exact Hn|].
  eapply Forall_impl; [|exact Ht]. intros m [Hm _]. exact Hm.
Qed.

Lemma drop_last_col_entries {X : Type} (B T : nat) (d : X) (m : matrix X) :
  shape2 B (S T) m -> drop_last_col m = tab B T (at2 m d).
Proof.
  intros Hm. rewrite (tab_of_matrix X B (S T) d m Hm) at 1.
  apply drop_last_col_tab.
Qed.

Section LossFacts.

Context {A : Type} `{Scalar A}.

Variable clr : matrix A -> matrix A -> matrix bool -> A -> A -> matrix A.

(** The value of [compute_loss], entry by entry, on a rollout of [T + 1]
    steps. *)
Lemma compute_loss_by_entries (B T : nat) (o : RolloutOutput A)
    (gamma lambda_ entropy_weight : A) :
  wf_rollout B (S T) o ->
  shape2 B (S T) (no_grad clr (rewards o) (values o) (ends o) gamma lambda_) ->
  let ret := at2 (no_grad clr (rewards o) (values o) (ends o) gamma lambda_) szero in
  let val := at2 (values o) szero in
  let dist0 b t := Categorical (at2 (rollout_logits_actions0 o) [] b t) in
  let dist1 b t := Categorical (at2 (rollout_logits_actions1 o) [] b t) in
  let adv b t := ssub (ret b t) (detach (val b t)) in
  compute_loss clr o gamma lambda_ entropy_weight =
  (mkLoss
     (nscale (sneg sone)
        (mean (over_steps B T (fun b t =>
           smul (log_prob (dist0 b t) (at2 (actions0 o) 0 b t)) (adv b t)))))
     (mean (over_steps B T (fun b t => square_error (val b t) (ret b t))))
     (nscale (sneg entropy_weight)
        (mean (over_steps B T (fun b t => entropy (dist0 b t))))),
   mkLoss
     (nscale (sneg sone)
        (mean (over_steps B T (fun b t =>
           smul (log_prob (dist1 b t) (at2 (actions1 o) 0 b t)) (adv b t)))))
     (mean (over_steps B T (fun b t => square_error (val b t) (ret b t))))
     (nscale (sneg entropy_weight)
        (mean (over_steps B T (fun b t => entropy (dist1 b t))))),
   mean (map detach (map sum_list (rewards o)))).
Proof.
  intros [Ha0 [Ha1 [Hl0 [Hl1 [Hv [_ _]]]]]] Hlr ret val dist0 dist1 adv.
  unfold compute_loss, mse_loss, mean2, detach_matrix.
  rewrite (drop_last_col_entries B T szero _ Hlr).
  rewrite (drop_last_col_entries B T szero _ Hv).
  rewrite (drop_last_col_entries B T [] _ (shape3_shape2 _ _ _ _ Hl0)).
  rewrite (drop_last_col_entries B T [] _ (shape3_shape2 _ _ _ _ Hl1)).
  rewrite (drop_last_col_entries B T 0 _ Ha0).
  rewrite (drop_last_col_entries B T 0 _ Ha1).
  repeat (rewrite map_tab || rewrite zip_with_tab). rewrite ?concat_tab.
  reflexivity.
Qed.

(** With one step only, every row is empty once the last column is
    dropped. *)
Lemma zip_rows_empty_l {X Y Z : Type} (f : X -> Y -> Z)
    (m1 : matrix X) (m2 : matrix Y) :
  Forall (fun r => r = []) m1 ->
  concat (zip_with (zip_with f) m1 m2) = [].
Proof.
  intros Hm. revert m2. induction Hm as [|r m1 -> _ IH]; intros [|r2 m2];
    cbn; auto.
Qed.

Lemma tab_zero_rows {X : Type} (B : nat) (g : nat -> nat -> X) :
  Forall (fun r => r = []) (tab B 0 g).
Proof.
  unfold tab. apply Forall_forall. intros r Hr.
  apply in_map_iff in Hr. destruct Hr as [b [<- _]]. reflexivity.
Qed.

Lemma compute_loss_one_step (B : nat) (o : RolloutOutput A)
    (gamma lambda_ entropy_weight : A) :
  wf_rollout B 1 o ->
  fst (compute_loss clr o gamma lambda_ entropy_weight) =
  (mkLoss NaN NaN NaN, mkLoss NaN NaN NaN).
Proof.
  intros [Ha0 [Ha1 [Hl0 [Hl1 [Hv [_ _]]]]]].
  unfold compute_loss, mse_loss, mean2, detach_matrix. cbn [fst].
  rewrite (drop_last_col_entries B 0 szero _ Hv).
  rewrite (drop_last_col_entries B 0 [] _ (shape3_shape2 _ _ _ _ Hl0)).
  rewrite (drop_last_col_entries B 0 [] _ (shape3_shape2 _ _ _ _ Hl1)).
  rewrite (drop_last_col_entries B 0 0 _ Ha0).
  rewrite (drop_last_col_entries B 0 0 _ Ha1).
  repeat (rewrite map_tab || rewrite zip_with_tab). rewrite ?concat_tab.
  rewrite !(zip_rows_empty_l _ _ _ (tab_zero_rows _ _)).
  assert (Hz : forall (X : Type) (g : nat -> nat -> X), over_steps B 0 g = []).
  { intros X g. rewrite <- concat_tab. apply concat_nil_Forall, tab_zero_rows. }
  rewrite !Hz. reflexivity.
Qed.

End LossFacts.

(** ** The return estimator *)

Section EstimatorFacts.

Open Scope R_scope.

Variables gamma lambda_ : R.

Lemma lambda_returns_row_cons (r v v' : R) (e : bool) (rs vs : list R)
    (es : list bool) :
  lambda_returns_row gamma lambda_ (r :: rs) (v :: v' :: vs) (e :: es) =
  (if e then r
   else r + gamma * ((1 - lambda_) * v' +
                     lambda_ * hd 0 (lambda_returns_row gamma lambda_ rs (v' :: vs) es)))
  :: lambda_returns_row gamma lambda_ rs (v' :: vs) es.
Proof. reflexivity. Qed.

Lemma lambda_returns_row_length (rs vs : list R) (es : list bool) :
  (length vs <= S (length rs))%nat -> (length vs <= S (length es))%nat ->
  length (lambda_returns_row gamma lambda_ rs vs es) = length vs.
Proof.
  revert rs es. induction vs as [|v vs IH]; intros rs es Hr He; [reflexivity|].
  destruct vs as [|v' vs']; [reflexivity|].
  destruct rs as [|r rs]; [cbn in Hr; lia|].
  destruct es as [|e es]; [cbn in He; lia|].
  rewrite lambda_returns_row_cons.
  change (length (v :: v' :: vs')) with (S (length (v' :: vs'))).
  rewrite <- (IH rs es); [reflexivity| |]; cbn [length] in *; lia.
Qed.

(** The return of step [t], by the flag of that step. *)
Lemma lambda_returns_row_step (rs vs : list R) (es : list bool) (t : nat) :
  (length vs <= S (length rs))%nat -> (length vs <= S (length es))%nat ->
  (S t < length vs)%nat ->
  let ret := lambda_returns_row gamma lambda_ rs vs es in
  nth t ret 0 =
  if nth t es false then nth t rs 0
  else nth t rs 0 +
       gamma * ((1 - lambda_) * nth (S t) vs 0 + lambda_ * nth (S t) ret 0).
Proof.
  revert rs es t. induction vs as [|v vs IH]; intros rs es t Hr He Ht;
    [cbn in Ht; lia|].
  destruct vs as [|v' vs']; [cbn in Ht; lia|].
  destruct rs as [|r rs]; [cbn in Hr; lia|].
  destruct es as [|e es]; [cbn in He; lia|].
  cbv zeta. rewrite lambda_returns_row_cons.
  destruct t as [|t].
  - cbn [nth].
    destruct (lambda_returns_row gamma lambda_ rs (v' :: vs') es); reflexivity.
  - cbn [nth].
    apply (IH rs es t); cbn [length] in *; lia.
Qed.

Lemma lambda_returns_row_last (rs vs : list R) (es : list bool) :
  (length vs <= S (length rs))%nat -> (length vs <= S (length es))%nat ->
  last (lambda_returns_row gamma lambda_ rs vs es) 0 = last vs 0.
Proof.
  revert rs es. induction vs as [|v vs IH]; intros rs es Hr He; [reflexivity|].
  destruct vs as [|v' vs']; [reflexivity|].
  destruct rs as [|r rs]; [cbn in Hr; lia|].
  destruct es as [|e es]; [cbn in He; lia|].
  rewrite lambda_returns_row_cons.
  pose proof (lambda_returns_row_length rs (v' :: vs') es
                ltac:(cbn [length] in *; lia) ltac:(cbn [length] in *; lia)) as Hl.
  destruct (lambda_returns_row gamma lambda_ rs (v' :: vs') es) as [|x l] eqn:El;
    [discriminate|].
  change (last (v :: v' :: vs') 0) with (last (v' :: vs') 0).
  rewrite <- (IH rs es); [|cbn [length] in *; lia|cbn [length] in *; lia].
  rewrite El. reflexivity.
Qed.

End EstimatorFacts.

Lemma last_as_nth {X : Type} (d : X) (l : list X) :
  last l d = nth (length l - 1) l d.
Proof.
  induction l as [|x l IH]; [reflexivity|].
  destruct l as [|y l]; [reflexivity|].
  change (last (x :: y :: l) d) with (last (y :: l) d). rewrite IH.
  replace (length (x :: y :: l) - 1) with (S (length (y :: l) - 1))
    by (cbn [length]; lia).
  reflexivity.
Qed.

Lemma spec_lambda_returns_shape (B T : nat) (rewards values : matrix R)
    (ends : matrix bool) (gamma lambda_ : R) :
  shape2 B T rewards -> shape2 B T values -> shape2 B T ends ->
  shape2 B T (spec_lambda_returns rewards values ends gamma lambda_).
Proof.
  intros [Hr Hrr] [Hv Hvr] [He Her]. unfold spec_lambda_returns.
  apply shape2_intro.
  - rewrite zip_with_length, length_combine. lia.
  - intros row Hrow. apply zip_with_In in Hrow.
    destruct Hrow as [rs [[vs es] [Hrs [Hve ->]]]].
    rewrite Forall_forall in Hrr, Hvr, Her.
    pose proof (Hrr rs Hrs) as H1.
    pose proof (Hvr vs (in_combine_l _ _ _ _ Hve)) as H2.
    pose proof (Her es (in_combine_r _ _ _ _ Hve)) as H3.
    cbn [fst snd]. rewrite lambda_returns_row_length; lia.
Qed.

Section EstimatorClaims.

Open Scope R_scope.

(** C3: the lambda-returns of a trajectory of T steps followed by its
    bootstrap slot: the return of the slot T is its value; the return of a
    step flagged by [ends] is its reward, with no continuation, so that a
    single terminal step returns its reward; the return of another step t
    is [reward[t] + gamma * ((1 - lambda_) * value[t+1] + lambda_ *
    return[t+1])], which for [lambda_ = 0] is the one-step target
    [reward[t] + gamma * value[t+1]]. *)
Theorem lambda_returns_recursion (gamma lambda_ : R) (T : nat)
    (rs vs : list R) (es : list bool) :
  length vs = S T -> (T <= length rs)%nat -> (T <= length es)%nat ->
  let ret := lambda_returns_row gamma lambda_ rs vs es in
  length ret = S T /\
  nth T ret 0 = nth T vs 0 /\
  (forall t, (t < T)%nat -> nth t es false = true ->
     nth t ret 0 = nth t rs 0) /\
  (forall t, (t < T)%nat -> nth t es false = false ->
     nth t ret 0 =
     nth t rs 0 +
     gamma * ((1 - lambda_) * nth (S t) vs 0 + lambda_ * nth (S t) ret 0)) /\
  (forall t, (t < T)%nat -> nth t es false = false ->
     nth t (lambda_returns_row gamma 0 rs vs es) 0 =
     nth t rs 0 + gamma * nth (S t) vs 0) /\
  (forall r v0 v1,
     nth 0 (lambda_returns_row gamma lambda_ [r] [v0; v1] [true]) 0 = r).
Proof.
  intros Hv Hr He ret.
  assert (Hlen : length ret = S T).
  { unfold ret. rewrite lambda_returns_row_length; lia. }
  split; [exact Hlen|]. split.
  { pose proof (lambda_returns_row_last gamma lambda_ rs vs es
                  ltac:(lia) ltac:(lia)) as Hl.
    rewrite !last_as_nth in Hl. fold ret in Hl.
    rewrite Hlen, Hv in Hl. replace (S T - 1)%nat with T in Hl by lia.
    exact Hl. }
  split.
  { intros t Ht Hend.
    pose proof (lambda_returns_row_step gamma lambda_ rs vs es t
                  ltac:(lia) ltac:(lia) ltac:(lia)) as Hs.
    cbv zeta in Hs. rewrite Hend in Hs. exact Hs. }
  split.
  { intros t Ht Hend.
    pose proof (lambda_returns_row_step gamma lambda_ rs vs es t
                  ltac:(lia) ltac:(lia) ltac:(lia)) as Hs.
    cbv zeta in Hs. rewrite Hend in Hs. exact Hs. }
  split.
  { intros t Ht Hend.
    pose proof (lambda_returns_row_step gamma 0 rs vs es t
                  ltac:(lia) ltac:(lia) ltac:(lia)) as Hs.
    cbv zeta in Hs. rewrite Hend in Hs. rewrite Hs. lra. }
  intros r v0 v1. reflexivity.
Qed.

Lemma lambda_returns_recursion_witness :
  nth 2 (lambda_returns_row (1 / 2) 0 [1; 2; 3] [4; 5; 6] [false; true; true]) 0 = 6 /\
  nth 1 (lambda_returns_row (1 / 2) 0 [1; 2; 3] [4; 5; 6] [false; true; true]) 0 = 2 /\
  nth 0 (lambda_returns_row (1 / 2) 0 [1; 2; 3] [4; 5; 6] [false; true; true]) 0 =
    1 + 1 / 2 * 5.
Proof.
  pose proof (lambda_returns_recursion (1 / 2) 0 2 [1; 2; 3] [4; 5; 6]
                [false; true; true] eq_refl ltac:(cbn; lia) ltac:(cbn; lia))
    as Hc.
  cbv zeta in Hc.
  destruct Hc as [_ [Hbase [Hend [_ [Htd _]]]]].
  split; [exact Hbase|]. split.
  - exact (Hend 1%nat ltac:(lia) eq_refl).
  - exact (Htd 0%nat ltac:(lia) eq_refl).
Defined.

End EstimatorClaims.

Section LossClaims.

Open Scope R_scope.

Variable clr : matrix R -> matrix R -> matrix bool -> R -> R -> matrix R.

Lemma detach_matrix_real (t : matrix R) : detach_matrix t = t.
Proof.
  unfold detach_matrix. cbn [detach R_Scalar].
  rewrite (map_ext _ (fun r => r)); [apply map_id|].
  intros r. apply map_id.
Qed.

Lemma no_grad_real (r v : matrix R) (e : matrix bool) (gamma lambda_ : R) :
  no_grad clr r v e gamma lambda_ = clr r v e gamma lambda_.
Proof. unfold no_grad. now rewrite !detach_matrix_real. Qed.

Lemma mean_finite (l : list R) :
  l <> [] -> mean l = Fin (sum_list l / INR (length l)).
Proof. destruct l; [contradiction|reflexivity]. Qed.

Lemma nadd_double_count (a0 a1 e0 e1 v : num R) :
  nadd (nadd (nadd a0 v) e0) (nadd (nadd a1 v) e1) =
  nadd (nadd (nadd a0 e0) (nadd a1 e1)) (nscale 2 v).
Proof.
  destruct a0, a1, e0, e1, v; cbn; try reflexivity.
  f_equal. lra.
Qed.



End LossClaims.

Section LossWitnesses.

Open Scope R_scope.

Lemma demo_rollout_wf : wf_rollout 1 3 demo_rollout.
Proof.
  unfold wf_rollout, demo_rollout, shape2, shape3, uniform_logits. cbn.
  repeat split; repeat constructor.
Qed.

Lemma one_step_rollout_wf : wf_rollout 1 1 one_step_rollout.
Proof.
  unfold wf_rollout, one_step_rollout, shape2, shape3, uniform_logits. cbn.
  repeat split; repeat constructor.
Qed.



End LossWitnesses.


(** ** Gradients of the action losses *)

Section GradientFacts.

Open Scope R_scope.

Variable clr :
  matrix Dual -> matrix Dual -> matrix bool -> Dual -> Dual -> matrix Dual.

Lemma constant_zero : constant szero.
Proof. reflexivity. Qed.

Lemma constant_one : constant sone.
Proof. reflexivity. Qed.

Lemma constant_detach (a : Dual) : constant (detach a).
Proof. reflexivity. Qed.

Lemma constant_add (a b : Dual) : constant a -> constant b -> constant (sadd a b).
Proof. unfold constant, tangent. cbn. intros -> ->. lra. Qed.

Lemma constant_sub (a b : Dual) : constant a -> constant b -> constant (ssub a b).
Proof. unfold constant, tangent. cbn. intros -> ->. lra. Qed.

Lemma constant_mul (a b : Dual) : constant a -> constant b -> constant (smul a b).
Proof. unfold constant, tangent. cbn. intros -> ->. lra. Qed.

Lemma constant_div (a b : Dual) : constant a -> constant b -> constant (sdiv a b).
Proof.
  unfold constant, tangent. cbn. intros -> ->. unfold Rdiv.
  rewrite Rmult_0_l, Rmult_0_r, Rminus_diag, Rmult_0_l. reflexivity.
Qed.

Lemma constant_neg (a : Dual) : constant a -> constant (sneg a).
Proof. unfold constant, tangent. cbn. intros ->. lra. Qed.

Lemma constant_exp (a : Dual) : constant a -> constant (sexp a).
Proof. unfold constant, tangent. cbn. intros ->. lra. Qed.

Lemma constant_ln (a : Dual) : constant a -> constant (sln a).
Proof.
  unfold constant, tangent. cbn. intros ->. unfold Rdiv. apply Rmult_0_l.
Qed.

Lemma constant_of_nat (n : nat) : constant (of_nat n).
Proof. reflexivity. Qed.

Lemma constant_sum (l : list Dual) : Forall constant l -> constant (sum_list l).
Proof.
  induction 1 as [|a l Ha _ IH]; [apply constant_zero|].
  cbn [sum_list fold_right]. apply constant_add; assumption.
Qed.

Lemma constant_Categorical (l : list Dual) :
  Forall constant l -> Forall constant (Categorical l).
Proof.
  intros Hl. unfold Categorical. apply Forall_forall. intros x Hx.
  apply in_map_iff in Hx. destruct Hx as [v [<- Hv]].
  rewrite Forall_forall in Hl. apply constant_sub; [auto|].
  unfold logsumexp. apply constant_ln, constant_sum.
  apply Forall_forall. intros y Hy. apply in_map_iff in Hy.
  destruct Hy as [u [<- Hu]]. apply constant_exp. auto.
Qed.

Lemma constant_log_prob (d : list Dual) (a : nat) :
  Forall constant d -> constant (log_prob d a).
Proof.
  intros Hd. unfold log_prob.
  destruct (nth_in_or_default a d szero) as [Hin | ->]; [|apply constant_zero].
  rewrite Forall_forall in Hd. auto.
Qed.

Lemma Forall_removelast {X : Type} (P : X -> Prop) (l : list X) :
  Forall P l -> Forall P (removelast l).
Proof.
  induction 1 as [|x l Hx Hl IH]; [constructor|].
  destruct l as [|y l]; [constructor|].
  change (removelast (x :: y :: l)) with (x :: removelast (y :: l)).
  constructor; assumption.
Qed.

Lemma Forall_zip_with {X Y Z : Type} (P : X -> Prop) (Q : Y -> Prop)
    (S : Z -> Prop) (f : X -> Y -> Z) (l1 : list X) (l2 : list Y) :
  (forall x y, P x -> Q y -> S (f x y)) ->
  Forall P l1 -> Forall Q l2 -> Forall S (zip_with f l1 l2).
Proof.
  intros Hf H1. revert l2. induction H1 as [|x l1 Hx _ IH]; intros l2 H2;
    [constructor|].
  destruct H2 as [|y l2 Hy H2]; [constructor|].
  cbn [zip_with]. constructor; auto.
Qed.

Lemma constant_mean2 (m : matrix Dual) (x : Dual) :
  constant_matrix m -> mean2 m = Fin x -> constant x.
Proof.
  intros Hm. unfold mean2, mean.
  assert (Hc : Forall constant (concat m)) by (apply Forall_concat; exact Hm).
  destruct (concat m) as [|a l] eqn:El; [discriminate|].
  intros Hx.
  assert (Ex : x = sdiv (sum_list (a :: l)) (of_nat (length (a :: l))))
    by congruence.
  rewrite Ex.
  apply constant_div; [apply constant_sum; exact Hc|apply constant_of_nat].
Qed.

(** The lambda-returns that the losses use are constants. *)
Lemma no_grad_constant (r v : matrix Dual) (e : matrix bool) (g l : Dual) :
  constant_matrix (no_grad clr r v e g l).
Proof.
  unfold no_grad, detach_matrix, constant_matrix.
  apply Forall_forall. intros row Hrow.
  apply in_map_iff in Hrow. destruct Hrow as [row0 [<- _]].
  apply Forall_forall. intros x Hx.
  apply in_map_iff in Hx. destruct Hx as [x0 [<- _]]. apply constant_detach.
Qed.

Lemma detach_matrix_constant (m : matrix Dual) :
  constant_matrix (detach_matrix m).
Proof.
  unfold detach_matrix, constant_matrix.
  apply Forall_forall. intros row Hrow.
  apply in_map_iff in Hrow. destruct Hrow as [row0 [<- _]].
  apply Forall_forall. intros x Hx.
  apply in_map_iff in Hx. destruct Hx as [x0 [<- _]]. apply constant_detach.
Qed.

Lemma advantage_constant (o : RolloutOutput Dual) (g l : Dual) :
  constant_matrix (advantage clr o g l).
Proof.
  unfold advantage, constant_matrix.
  apply (Forall_zip_with (Forall constant) (Forall constant)).
  - intros r1 r2 H1 H2.
    apply (Forall_zip_with constant constant); auto. apply constant_sub.
  - unfold drop_last_col. apply Forall_forall. intros row Hrow.
    apply in_map_iff in Hrow. destruct Hrow as [row0 [<- Hin]].
    apply Forall_removelast.
    pose proof (no_grad_constant (rewards o) (values o) (ends o) g l) as Hc.
    unfold constant_matrix in Hc. rewrite Forall_forall in Hc. auto.
  - apply detach_matrix_constant.
Qed.

Lemma detach_drop_last_col (m : matrix Dual) :
  detach_matrix (drop_last_col m) = drop_last_col (detach_matrix m).
Proof.
  unfold detach_matrix, drop_last_col. rewrite !map_map.
  apply map_ext. intros row. symmetry. apply removelast_map.
Qed.

Lemma loss_actions_unfold (o : RolloutOutput Dual) (g l ew : Dual) :
  loss_actions (fst (fst (compute_loss clr o g l ew))) =
    action_loss (rollout_logits_actions0 o) (actions0 o) (advantage clr o g l) /\
  loss_actions (snd (fst (compute_loss clr o g l ew))) =
    action_loss (rollout_logits_actions1 o) (actions1 o) (advantage clr o g l).
Proof. split; reflexivity. Qed.

Lemma action_loss_constant (logits : list (matrix Dual)) (actions : matrix nat)
    (adv : matrix Dual) (x : Dual) :
  Forall (Forall (Forall constant)) logits -> constant_matrix adv ->
  action_loss logits actions adv = Fin x -> constant x.
Proof.
  intros Hl Ha. unfold action_loss.
  destruct (mean2 _) as [y|] eqn:Em; [|discriminate].
  cbn [nscale]. intros Hx.
  assert (Ex : x = smul (sneg sone) y) by congruence.
  rewrite Ex.
  apply constant_mul; [apply constant_neg, constant_one|].
  apply constant_mean2 in Em; [exact Em|].
  unfold constant_matrix.
  apply (Forall_zip_with (Forall constant) (Forall constant)); [| |exact Ha].
  - intros r1 r2 H1 H2.
    apply (Forall_zip_with constant constant); auto. apply constant_mul.
  - apply (Forall_zip_with (Forall (Forall constant)) (fun _ => True)).
    + intros ds acts Hds _.
      apply (Forall_zip_with (Forall constant) (fun _ => True)); auto.
      * intros d a Hd _. now apply constant_log_prob.
      * apply Forall_forall. auto.
    + unfold drop_last_col. rewrite map_map.
      apply Forall_forall. intros row Hrow.
      apply in_map_iff in Hrow. destruct Hrow as [row0 [<- Hin]].
      rewrite Forall_forall in Hl. specialize (Hl row0 Hin).
      apply Forall_forall. intros d Hd.
      apply in_map_iff in Hd. destruct Hd as [l0 [<- Hl0]].
      apply constant_Categorical.
      apply Forall_removelast in Hl. rewrite Forall_forall in Hl. auto.
    + apply Forall_forall. auto.
Qed.

(** C2: in [compute_loss] the lambda-returns are computed without
    gradient and the value estimates enter the advantage detached: the
    advantage is a constant for autograd; two rollouts that differ only by
    the derivative of their value estimates have the same advantage and the
    same action losses, derivative included; and when only the value output
    moves (the logits being constants) the derivative of each action loss
    is zero. *)
Theorem policy_loss_decoupled (o o' : RolloutOutput Dual)
    (gamma lambda_ entropy_weight : Dual) :
  actions0 o' = actions0 o -> actions1 o' = actions1 o ->
  rollout_logits_actions0 o' = rollout_logits_actions0 o ->
  rollout_logits_actions1 o' = rollout_logits_actions1 o ->
  rewards o' = rewards o -> ends o' = ends o ->
  detach_matrix (values o') = detach_matrix (values o) ->
  let l0 x := fst (fst (compute_loss clr x gamma lambda_ entropy_weight)) in
  let l1 x := snd (fst (compute_loss clr x gamma lambda_ entropy_weight)) in
  constant_matrix
    (no_grad clr (rewards o) (values o) (ends o) gamma lambda_) /\
  constant_matrix (advantage clr o gamma lambda_) /\
  advantage clr o' gamma lambda_ = advantage clr o gamma lambda_ /\
  loss_actions (l0 o') = loss_actions (l0 o) /\
  loss_actions (l1 o') = loss_actions (l1 o) /\
  (Forall (Forall (Forall constant)) (rollout_logits_actions0 o) ->
   forall x, loss_actions (l0 o) = Fin x -> tangent x = 0) /\
  (Forall (Forall (Forall constant)) (rollout_logits_actions1 o) ->
   forall x, loss_actions (l1 o) = Fin x -> tangent x = 0).
Proof.
  intros Ha0 Ha1 Hl0 Hl1 Hr He Hv l0 l1.
  assert (Hadv : advantage clr o' gamma lambda_ = advantage clr o gamma lambda_).
  { unfold advantage, no_grad.
    rewrite !detach_drop_last_col, Hr, He, Hv. reflexivity. }
  split; [apply no_grad_constant|].
  split; [apply advantage_constant|].
  split; [exact Hadv|].
  unfold l0, l1.
  destruct (loss_actions_unfold o gamma lambda_ entropy_weight) as [E0 E1].
  destruct (loss_actions_unfold o' gamma lambda_ entropy_weight) as [E0' E1'].
  rewrite E0, E1, E0', E1', Hadv, Ha0, Ha1, Hl0, Hl1.
  split; [reflexivity|]. split; [reflexivity|]. split.
  - intros Hc x Hx.
    apply (action_loss_constant _ _ _ x Hc (advantage_constant o gamma lambda_) Hx).
  - intros Hc x Hx.
    apply (action_loss_constant _ _ _ x Hc (advantage_constant o gamma lambda_) Hx).
Qed.

End GradientFacts.

Section GradientWitness.

Open Scope R_scope.

Lemma policy_loss_decoupled_witness :
  loss_actions
    (fst (fst (compute_loss dual_clr (dual_rollout 5)
                 (99 / 100, 0) (95 / 100, 0) (1 / 1000, 0)))) =
  loss_actions
    (fst (fst (compute_loss dual_clr (dual_rollout 0)
                 (99 / 100, 0) (95 / 100, 0) (1 / 1000, 0)))) /\
  constant_matrix
    (advantage dual_clr (dual_rollout 0) (99 / 100, 0) (95 / 100, 0)).
Proof.
  pose proof (policy_loss_decoupled dual_clr (dual_rollout 0) (dual_rollout 5)
                (99 / 100, 0) (95 / 100, 0) (1 / 1000, 0)
                eq_refl eq_refl eq_refl eq_refl eq_refl eq_refl eq_refl) as Hc.
  cbv zeta in Hc.
  destruct Hc as [_ [Hadv [_ [Hl _]]]].
  split; [exact Hl|exact Hadv].
Defined.

(** The value loss, by contrast, moves with the value estimates. *)
Lemma value_loss_has_gradient :
  exists x,
    loss_values
      (fst (fst (compute_loss dual_clr (dual_rollout 5)
                   (99 / 100, 0) (95 / 100, 0) (1 / 1000, 0)))) = Fin x /\
    tangent x <> 0.
Proof.
  eexists. split; [reflexivity|].
  unfold tangent. cbn. lra.
Qed.

End GradientWitness.

(** * Further properties of the code *)

(** ** The network *)

Section NetworkBounds.

Open Scope R_scope.

Lemma relu_nonneg (v : R) : 0 <= relu v.
Proof. unfold relu. cbn [smax szero R_Scalar]. apply Rmax_r. Qed.

Lemma stage_nonneg (cv : Conv2d R) (mp : MaxPool2d) (x : list (image R)) :
  Forall (Forall (Forall (Forall (fun v => 0 <= v)))) (stage cv mp x).
Proof.
  unfold stage, relu_image. apply Forall_forall. intros img Himg.
  apply in_map_iff in Himg. destruct Himg as [img0 [<- _]].
  apply Forall_forall. intros ch Hch.
  apply in_map_iff in Hch. destruct Hch as [ch0 [<- _]].
  apply Forall_forall. intros row Hrow.
  apply in_map_iff in Hrow. destruct Hrow as [row0 [<- _]].
  apply Forall_forall. intros v Hv.
  apply in_map_iff in Hv. destruct Hv as [v0 [<- _]]. apply relu_nonneg.
Qed.

(** The rows that [forward] feeds to the recurrent cell have no negative
    entry, whatever the parameters and the input: each stage ends with
    ReLU. *)
Theorem features_nonneg (m : ActorCritic R) (inputs : Tensor R) :
  Forall (Forall (fun v => 0 <= v)) (features m inputs).
Proof.
  unfold features, flatten1.
  pose proof (stage_nonneg (conv4 m) maxp4
                (stage (conv3 m) maxp3
                   (stage (conv2 m) maxp2
                      (stage (conv1 m) maxp1 (batch_of (rescale inputs))))))
    as Hst.
  apply Forall_forall. intros row Hrow.
  apply in_map_iff in Hrow. destruct Hrow as [img [<- Himg]].
  rewrite Forall_forall in Hst. specialize (Hst img Himg).
  apply Forall_concat, Forall_concat. exact Hst.
Qed.

Lemma sigmoid_bounds (z : R) : 0 < sigmoid z < 1.
Proof.
  unfold sigmoid. cbn [sdiv sone sadd sexp sneg R_Scalar].
  pose proof (exp_pos (- z)) as He.
  assert (Hd : 0 < 1 + exp (- z)) by lra.
  pose proof (Rinv_0_lt_compat _ Hd) as Hi.
  assert (Hm : (1 + exp (- z)) * / (1 + exp (- z)) = 1)
    by (apply Rinv_r; lra).
  unfold Rdiv. nra.
Qed.

Lemma stanh_bounds (z : R) : -1 < stanh z < 1.
Proof.
  unfold stanh. cbn [sdiv ssub sadd sexp sneg R_Scalar].
  pose proof (exp_pos z) as Ha. pose proof (exp_pos (- z)) as Hb.
  assert (Hd : 0 < exp z + exp (- z)) by lra.
  pose proof (Rinv_0_lt_compat _ Hd) as Hi.
  assert (Hm : (exp z + exp (- z)) * / (exp z + exp (- z)) = 1)
    by (apply Rinv_r; lra).
  unfold Rdiv. nra.
Qed.

Lemma lstm_row_hidden_bounds (cell : LSTMCell R) (x : list R)
    (hc : list R * list R) :
  Forall (fun v => -1 < v < 1) (fst (lstm_row cell x hc)).
Proof.
  unfold lstm_row. cbn [fst]. apply Forall_forall. intros v Hv.
  apply in_map_iff in Hv. destruct Hv as [k [<- _]].
  cbn [smul R_Scalar].
  match goal with
  | |- _ < sigmoid ?a * stanh ?b < _ =>
    pose proof (sigmoid_bounds a); pose proof (stanh_bounds b)
  end.
  nra.
Qed.



End NetworkBounds.

(** ** The categorical distribution of a head *)

Section CategoricalFacts.

Open Scope R_scope.

Lemma sum_list_cons (x : R) (l : list R) : sum_list (x :: l) = x + sum_list l.
Proof. reflexivity. Qed.

Lemma sum_list_scale {X : Type} (f : X -> R) (k : R) (l : list X) :
  sum_list (map (fun v => f v * k) l) = sum_list (map f l) * k.
Proof.
  induction l as [|x l IH]; cbn [map]; rewrite ?sum_list_cons.
  - cbn. lra.
  - rewrite IH. lra.
Qed.

Lemma sum_list_plus {X : Type} (f g : X -> R) (l : list X) :
  sum_list (map (fun v => f v + g v) l) =
  sum_list (map f l) + sum_list (map g l).
Proof.
  induction l as [|x l IH]; cbn [map]; rewrite ?sum_list_cons.
  - cbn. lra.
  - rewrite IH. lra.
Qed.

Lemma sum_list_const {X : Type} (k : R) (l : list X) :
  sum_list (map (fun _ => k) l) = INR (length l) * k.
Proof.
  induction l as [|x l IH]; [cbn; lra|].
  cbn [map]. rewrite sum_list_cons, IH.
  change (length (x :: l)) with (S (length l)). rewrite S_INR. lra.
Qed.

Lemma sum_list_le {X : Type} (f g : X -> R) (l : list X) :
  (forall x, In x l -> f x <= g x) ->
  sum_list (map f l) <= sum_list (map g l).
Proof.
  induction l as [|x l IH]; intros Hfg; cbn [map]; rewrite ?sum_list_cons.
  - cbn. lra.
  - pose proof (Hfg x (or_introl eq_refl)).
    assert (sum_list (map f l) <= sum_list (map g l))
      by (apply IH; intros y Hy; apply Hfg; now right).
    lra.
Qed.

Lemma sum_list_nonneg (l : list R) :
  Forall (fun v => 0 <= v) l -> 0 <= sum_list l.
Proof.
  induction 1 as [|x l Hx _ IH]; rewrite ?sum_list_cons; [cbn|]; lra.
Qed.

Lemma sum_exp_bounds (l : list R) :
  (l <> [] -> 0 < sum_list (map exp l)) /\
  (forall v, In v l -> exp v <= sum_list (map exp l)).
Proof.
  induction l as [|x l [IHp IHb]].
  - split; [intros H; contradiction|intros v []].
  - cbn [map]. rewrite sum_list_cons.
    pose proof (exp_pos x) as Hx.
    assert (Hs : 0 <= sum_list (map exp l)).
    { apply sum_list_nonneg, Forall_forall. intros y Hy.
      apply in_map_iff in Hy. destruct Hy as [u [<- _]].
      apply Rlt_le, exp_pos. }
    split; [intros _; lra|].
    intros v [<-|Hv]; [lra|]. specialize (IHb v Hv). lra.
Qed.

Lemma zip_with_map_r {X Y Z : Type} (f : X -> Y -> Z) (g : X -> Y) (l : list X) :
  zip_with f l (map g l) = map (fun x => f x (g x)) l.
Proof. induction l as [|x l IH]; cbn; [reflexivity|now rewrite IH]. Qed.

Lemma exp_minus_ln (v s : R) : 0 < s -> exp (v - ln s) = exp v / s.
Proof.
  intros Hs. unfold Rminus, Rdiv.
  rewrite exp_plus, exp_Ropp, exp_ln by exact Hs. reflexivity.
Qed.

Lemma Categorical_real (l : list R) :
  Categorical l = map (fun v => v - ln (sum_list (map exp l))) l.
Proof. reflexivity. Qed.

Lemma Categorical_length (l : list R) : length (Categorical l) = length l.
Proof. rewrite Categorical_real. apply length_map. Qed.

Lemma Categorical_sum_exp (l : list R) :
  l <> [] -> sum_list (map exp (Categorical l)) = 1.
Proof.
  intros Hne. pose proof (proj1 (sum_exp_bounds l) Hne) as Hs.
  rewrite Categorical_real, map_map.
  rewrite (map_ext _ (fun v => exp v * / sum_list (map exp l))).
  - rewrite (sum_list_scale exp). apply Rinv_r. lra.
  - intros v. rewrite exp_minus_ln by exact Hs. reflexivity.
Qed.

Lemma probs_real (d : list R) :
  probs d = map (fun v => exp v / sum_list (map exp d)) d.
Proof. reflexivity. Qed.

Lemma log_prob_entry (l : list R) (a : nat) :
  (a < length l)%nat ->
  log_prob (Categorical l) a = nth a l 0 - ln (sum_list (map exp l)).
Proof.
  intros Ha. unfold log_prob. cbn [szero R_Scalar]. rewrite Categorical_real.
  rewrite (nth_indep _ 0 (0 - ln (sum_list (map exp l))))
    by (rewrite length_map; exact Ha).
  apply (map_nth (fun v => v - ln (sum_list (map exp l)))).
Qed.



(** Adding one constant to all the logits of a head does not change its
    distribution. *)
Theorem Categorical_shift (c : R) (l : list R) :
  Categorical (map (fun v => v + c) l) = Categorical l.
Proof.
  destruct l as [|x l]; [reflexivity|].
  assert (Hne : x :: l <> []) by discriminate.
  pose proof (proj1 (sum_exp_bounds (x :: l)) Hne) as Hs.
  rewrite !Categorical_real.
  assert (Hsum : sum_list (map exp (map (fun v => v + c) (x :: l))) =
                 sum_list (map exp (x :: l)) * exp c).
  { rewrite map_map, <- (sum_list_scale exp). f_equal.
    apply map_ext. intros v. apply exp_plus. }
  rewrite Hsum, ln_mult, ln_exp by (exact Hs || apply exp_pos).
  rewrite map_map. apply map_ext. intros v. lra.
Qed.

End CategoricalFacts.

(** ** Signs and ranges of the losses *)

Section LossRanges.

Open Scope R_scope.

Lemma ln_le_minus_1 (y : R) : 0 < y -> ln y <= y - 1.
Proof.
  intros Hy. destruct (Req_dec (ln y) 0) as [H0|H0].
  - assert (y = 1) by (rewrite <- (exp_ln y Hy), H0; apply exp_0). lra.
  - pose proof (exp_ineq1 (ln y) H0) as Hlt. rewrite (exp_ln y Hy) in Hlt. lra.
Qed.

Lemma Categorical_entry_nonpos (l : list R) (v : R) :
  In v (Categorical l) -> v <= 0.
Proof.
  intros Hv. rewrite Categorical_real in Hv.
  apply in_map_iff in Hv. destruct Hv as [u [<- Hu]].
  assert (Hne : l <> []) by (intros ->; destruct Hu).
  pose proof (proj1 (sum_exp_bounds l) Hne) as Hs.
  pose proof (proj2 (sum_exp_bounds l) u Hu) as [Hlt|Heq].
  - pose proof (ln_increasing _ _ (exp_pos u) Hlt) as Hln.
    rewrite ln_exp in Hln. lra.
  - rewrite <- Heq, ln_exp. lra.
Qed.

Lemma entropy_real (l : list R) :
  l <> [] ->
  entropy (Categorical l) =
  - sum_list (map (fun v => v * exp v) (Categorical l)).
Proof.
  intros Hne. unfold entropy. cbn [sneg smul R_Scalar].
  rewrite probs_real, (Categorical_sum_exp l Hne), zip_with_map_r.
  f_equal. f_equal. apply map_ext. intros v. lra.
Qed.

(** The entropy of the distribution of a head lies between 0 and the
    logarithm of the number of actions. *)
Lemma entropy_bounds (l : list R) :
  l <> [] -> 0 <= entropy (Categorical l) <= ln (INR (length l)).
Proof.
  intros Hne. rewrite (entropy_real l Hne).
  pose proof (Categorical_sum_exp l Hne) as H1.
  pose proof (Categorical_length l) as Hlen.
  set (d := Categorical l) in *.
  assert (Hn : 0 < INR (length l)).
  { apply lt_0_INR. destruct l; [contradiction|cbn; lia]. }
  split.
  - assert (Hle : sum_list (map (fun v => v * exp v) d) <=
                  sum_list (map (fun _ => 0) d)).
    { apply sum_list_le. intros v Hv.
      pose proof (Categorical_entry_nonpos l v Hv). pose proof (exp_pos v). nra. }
    rewrite sum_list_const in Hle. lra.
  - assert (Hterm : forall v, In v d ->
              - (v * exp v) + exp v * (- ln (INR (length l))) <=
              / INR (length l) + exp v * (-1)).
    { intros v _. pose proof (exp_pos v) as He.
      assert (Hy : 0 < / (INR (length l) * exp v))
        by (apply Rinv_0_lt_compat; nra).
      pose proof (ln_le_minus_1 _ Hy) as Hln.
      rewrite ln_Rinv, ln_mult, ln_exp in Hln by (nra || lra).
      assert (Hinv : exp v * / (INR (length l) * exp v) = / INR (length l))
        by (field; lra).
      nra. }
    pose proof (sum_list_le _ _ d Hterm) as Hsum.
    rewrite !sum_list_plus, sum_list_const in Hsum.
    rewrite !(sum_list_scale exp) in Hsum.
    rewrite (map_ext (fun v => - (v * exp v)) (fun v => (v * exp v) * (-1)))
      in Hsum by (intros v; lra).
    rewrite (sum_list_scale (fun v => v * exp v)) in Hsum.
    rewrite H1, Hlen in Hsum.
    assert (Hone : INR (length l) * / INR (length l) = 1)
      by (apply Rinv_r; lra).
    lra.
Qed.

Lemma over_steps_In {X : Type} (B T : nat) (f : nat -> nat -> X) (x : X) :
  In x (over_steps B T f) <->
  exists b t, (b < B)%nat /\ (t < T)%nat /\ x = f b t.
Proof.
  unfold over_steps. rewrite in_flat_map. split.
  - intros [b [Hb Hx]]. apply in_map_iff in Hx. destruct Hx as [t [<- Ht]].
    apply in_seq in Hb, Ht. exists b, t. repeat split; lia.
  - intros [b [t [Hb [Ht ->]]]]. exists b. split; [apply in_seq; lia|].
    apply in_map, in_seq. lia.
Qed.

Lemma over_steps_nonempty {X : Type} (B T : nat) (f : nat -> nat -> X) :
  (1 <= B)%nat -> (1 <= T)%nat -> over_steps B T f <> [].
Proof.
  intros HB HT Hnil. apply (f_equal (@length X)) in Hnil.
  rewrite over_steps_length in Hnil. cbn in Hnil. nia.
Qed.

Lemma mean_between (lo hi : R) (l : list R) :
  l <> [] -> (forall x, In x l -> lo <= x <= hi) ->
  exists m, mean l = Fin m /\ lo <= m <= hi.
Proof.
  intros Hne Hb. rewrite (mean_finite l Hne).
  eexists. split; [reflexivity|].
  assert (Hn : 0 < INR (length l)).
  { apply lt_0_INR. destruct l; [contradiction|cbn; lia]. }
  pose proof (sum_list_le (fun _ => lo) (fun x => x) l
                (fun x Hx => proj1 (Hb x Hx))) as Hlo.
  pose proof (sum_list_le (fun x => x) (fun _ => hi) l
                (fun x Hx => proj2 (Hb x Hx))) as Hhi.
  rewrite sum_list_const in Hlo, Hhi. rewrite map_id in Hlo, Hhi.
  pose proof (Rinv_0_lt_compat _ Hn) as Hi.
  unfold Rdiv. split.
  - replace lo with ((INR (length l) * lo) * / INR (length l)) at 1
      by (field; lra).
    apply Rmult_le_compat_r; lra.
  - replace hi with ((INR (length l) * hi) * / INR (length l)) at 1
      by (field; lra).
    apply Rmult_le_compat_r; lra.
Qed.

Lemma entry_row_length {X : Type} (B T k : nat) (t : list (matrix X)) (b s : nat) :
  shape3 B T k t -> (b < B)%nat -> (s < T)%nat ->
  length (at2 t [] b s) = k.
Proof.
  intros [HB Ht] Hb Hs. unfold at2.
  rewrite Forall_forall in Ht.
  assert (Hrow : shape2 T k (nth b t [])) by (apply Ht, nth_In; lia).
  destruct Hrow as [HT Hk]. rewrite Forall_forall in Hk.
  apply Hk, nth_In. lia.
Qed.

Variable clr : matrix R -> matrix R -> matrix bool -> R -> R -> matrix R.

Lemma loss_entropy_by_entries (B T : nat) (o : RolloutOutput R)
    (gamma lambda_ entropy_weight : R) :
  wf_rollout B (S T) o ->
  loss_entropy (fst (fst (compute_loss clr o gamma lambda_ entropy_weight))) =
    nscale (- entropy_weight)
      (mean (over_steps B T (fun b t =>
         entropy (Categorical (at2 (rollout_logits_actions0 o) [] b t))))) /\
  loss_entropy (snd (fst (compute_loss clr o gamma lambda_ entropy_weight))) =
    nscale (- entropy_weight)
      (mean (over_steps B T (fun b t =>
         entropy (Categorical (at2 (rollout_logits_actions1 o) [] b t))))).
Proof.
  intros [_ [_ [Hl0 [Hl1 _]]]].
  unfold compute_loss, mean2. cbn [fst snd loss_entropy].
  rewrite (drop_last_col_entries B T [] _ (shape3_shape2 _ _ _ _ Hl0)).
  rewrite (drop_last_col_entries B T [] _ (shape3_shape2 _ _ _ _ Hl1)).
  rewrite !map_tab, !concat_tab. split; reflexivity.
Qed.


Lemma sum_list_zero (l : list R) :
  Forall (fun v => 0 <= v) l ->
  (sum_list l = 0 <-> Forall (fun v => v = 0) l).
Proof.
  induction 1 as [|x l Hx Hl IH]; rewrite ?sum_list_cons.
  - split; [constructor|reflexivity].
  - pose proof (sum_list_nonneg l Hl) as Hs. split.
    + intros Hsum. constructor; [lra|]. apply IH. lra.
    + intros Hall. inversion Hall as [|? ? Hx0 Hl0]; subst.
      apply IH in Hl0. lra.
Qed.



End LossRanges.

Section LossRangeWitnesses.

Open Scope R_scope.



(** ** Storage of the observations *)

(** The byte stored for a pixel [v] of an observation is the largest
    integer not above [255 * v]: dividing it by 255 gives [v] back up to an
    error below 1/255, never from above; the storage keeps the order of
    the pixels, and only the pixel 1 is stored as 255. *)
Theorem to_byte_quantisation (v : R) :
  0 <= v <= 1 ->
  IZR (to_byte v) / 255 <= v < (IZR (to_byte v) + 1) / 255 /\
  (forall u, 0 <= u <= v -> (to_byte u <= to_byte v)%Z) /\
  (to_byte v = 255%Z <-> v = 1).
Proof.
  intros Hv.
  destruct (to_byte_unit v Hv) as [Hb Hr].
  destruct (base_Int_part (v * 255)) as [Hlo Hhi]. rewrite <- Hb in Hlo, Hhi.
  split; [unfold Rdiv; split; lra|]. split.
  - intros u Hu.
    destruct (to_byte_unit u ltac:(lra)) as [Hbu _].
    destruct (base_Int_part (u * 255)) as [Hlou _]. rewrite <- Hbu in Hlou.
    assert (Hlt : IZR (to_byte u) < IZR (to_byte v + 1)).
    { rewrite plus_IZR. lra. }
    apply lt_IZR in Hlt. lia.
  - split.
    + intros H255. rewrite H255 in Hlo. lra.
    + intros ->.
      assert (Hlt : IZR 254 < IZR (to_byte 1)) by lra.
      apply lt_IZR in Hlt. lia.
Qed.

Lemma to_byte_quantisation_witness :
  IZR (to_byte (1 / 2)) / 255 <= 1 / 2 < (IZR (to_byte (1 / 2)) + 1) / 255 /\
  (to_byte 0%R <= to_byte (1 / 2)%R)%Z.
Proof.
  destruct (to_byte_quantisation (1 / 2) ltac:(lra)) as [Hq [Hm _]].
  split; [exact Hq|]. apply Hm. lra.
Defined.

End LossRangeWitnesses.

(** ** The collector in every outcome *)

Section RolloutOutcomes.

Variables E G : Type.
Variable envs_api : Env R E.
Variable draw : G -> list R -> nat * G.

(** A call of [forward] that raises leaves the module as it was, and with
    the hidden state present it cannot raise for a missing state. *)
Lemma forward_raise_inv (m m' : ActorCritic R) (inputs : Tensor R) (e : exn) :
  forward inputs m = (Raise e, m') ->
  m' = m /\ ((exists n, present n m) -> e <> AttributeError).
Proof.
  intros Hf. rewrite forward_cases in Hf.
  destruct ((ndim inputs =? 4) && shape_eqb (tl (shape inputs)) [3; 64; 64]).
  2:{ inversion Hf; subst. split; [reflexivity|discriminate]. }
  destruct (tmin inputs) as [lo|].
  2:{ inversion Hf; subst. split; [reflexivity|discriminate]. }
  destruct (tmax inputs) as [hi|].
  2:{ inversion Hf; subst. split; [reflexivity|discriminate]. }
  destruct (in_range lo hi).
  2:{ inversion Hf; subst. split; [reflexivity|discriminate]. }
  destruct (lstm_cell (lstm m) (features m inputs) (hx m) (cx m))
    as [[h c]|e'] eqn:El; [discriminate|].
  inversion Hf; subst. split; [reflexivity|].
  intros [n [h [c [Hh [Hc _]]]]]. rewrite Hh, Hc in El.
  unfold lstm_cell in El. destruct (_ && _); [discriminate|].
  inversion El. discriminate.
Qed.

Lemma iteration_raise_inv (obss0 : Tensor R) (w w1 : World R E G) (e : exn) :
  iteration envs_api draw obss0 w = (Raise e, w1) ->
  w1 = w /\ forward obss0 (actor0 w) = (Raise e, actor0 w).
Proof.
  unfold iteration, bind, on_actor, ret, sample, envs_step. intros Hi.
  destruct (forward obss0 (actor0 w)) as [[o|e'] m'] eqn:Ef.
  - cbn [actor0 envs generator] in Hi.
    destruct (draws _ (logits_actions0 o) (generator w)) as [b0 g0].
    cbn [actor0 envs generator] in Hi.
    destruct (draws _ (logits_actions1 o) g0) as [b1 g1].
    cbn [actor0 envs generator] in Hi.
    destruct (env_step envs_api (envs w) (zip_with (@app nat) b0 b1)).
    discriminate.
  - destruct (forward_raise_inv _ _ _ _ Ef) as [-> _].
    inversion Hi; subst. destruct w. split; reflexivity.
Qed.

Lemma iteration_weights (n : nat) (obss0 : Tensor R) (w w1 : World R E G)
    (out : ActorCriticOutput R) (a0 a1 : matrix nat) (st : StepResult R) :
  iteration envs_api draw obss0 w = (Ok (out, a0, a1, st), w1) ->
  present n (actor0 w) ->
  weights (actor0 w1) = weights (actor0 w).
Proof.
  unfold iteration, bind, on_actor, ret, sample, envs_step. intros Hi Hp.
  destruct (forward obss0 (actor0 w)) as [[o|e'] m'] eqn:Ef; [|discriminate].
  destruct (forward_inv _ _ n _ _ Ef Hp) as [_ [_ [_ [_ [_ [_ Hw]]]]]].
  cbn [actor0 envs generator] in Hi.
  destruct (draws _ (logits_actions0 o) (generator w)) as [b0 g0].
  cbn [actor0 envs generator] in Hi.
  destruct (draws _ (logits_actions1 o) g0) as [b1 g1].
  cbn [actor0 envs generator] in Hi.
  destruct (env_step envs_api (envs w) (zip_with (@app nat) b0 b1)).
  inversion Hi; subst. exact Hw.
Qed.

(** What the loop keeps, however it ends. *)
Lemma rollout_loop_state (n steps : nat) :
  forall (obss0 : Tensor R) (r : Records R) (w w' : World R E G)
         (res : result (Records R)),
  rollout_loop envs_api draw steps obss0 r w = (res, w') ->
  present n (actor0 w) ->
  present n (actor0 w') /\ weights (actor0 w') = weights (actor0 w) /\
  res <> Raise AttributeError.
Proof.
  induction steps as [|k IH]; intros obss0 r w w' res Hloop Hp.
  - cbn in Hloop. inversion Hloop; subst.
    split; [exact Hp|]. split; [reflexivity|discriminate].
  - rewrite rollout_loop_S in Hloop.
    destruct (iteration envs_api draw obss0 w) as [[[[[out a0] a1] st]|e] w1] eqn:Ei.
    + destruct (iteration_inv _ _ _ _ n _ _ _ _ _ _ _ Ei Hp)
        as [_ [_ [_ [_ [_ [_ [_ [_ Hp1]]]]]]]].
      pose proof (iteration_weights n _ _ _ _ _ _ _ Ei Hp) as Hw1.
      cbv zeta in Hloop.
      destruct (existsb (fun d => d) (dones st)).
      * destruct (forallb (fun d => d) (dones st)); inversion Hloop; subst;
          (split; [exact Hp1|]); (split; [exact Hw1|discriminate]).
      * destruct (IH _ _ _ _ _ Hloop Hp1) as [Hp' [Hw' Hne]].
        split; [exact Hp'|]. split; [congruence|exact Hne].
    + destruct (iteration_raise_inv _ _ _ _ Ei) as [-> Hf].
      inversion Hloop; subst.
      split; [exact Hp|]. split; [reflexivity|].
      destruct (forward_raise_inv _ _ _ _ Hf) as [_ Hne].
      intros Heq. inversion Heq; subst. apply Hne; [|reflexivity].
      now exists n.
Qed.

Lemma batch_rollout_state (w w' : World R E G) (res : result (RolloutOutput R)) :
  batch_rollout envs_api draw w = (res, w') ->
  weights (actor0 w') = weights (actor0 w) /\
  match res with
  | Ok _ => absent (actor0 w')
  | Raise e => present (env_n envs_api (envs w)) (actor0 w') /\
               (e = AssertionError \/ e = RuntimeError)
  end.
Proof.
  unfold batch_rollout, bind, envs_n, on_actor, reset, envs_reset, envs_step,
    clear, ret.
  cbn [actor0 envs generator].
  destruct (env_step envs_api (env_reset envs_api (envs w))
              (repeat [0; 0] (env_n envs_api (envs w)))) as [st e1].
  match goal with
  | |- context [rollout_loop ?a ?d ?s ?o ?r ?x] =>
    destruct (rollout_loop a d s o r x) as [res1 w1] eqn:El;
    pose proof (rollout_loop_state (env_n envs_api (envs w)) s o r x w1 res1 El)
      as Hst
  end.
  cbn [actor0] in Hst.
  destruct Hst as [Hp [Hw Hne]].
  { exists (zeros (env_n envs_api (envs w)) lstm_dim),
           (zeros (env_n envs_api (envs w)) lstm_dim).
    split; [reflexivity|]. split; [reflexivity|]. split; apply zeros_shape. }
  cbn [weights] in Hw.
  destruct res1 as [r'|e]; intros Hres; inversion Hres; subst; cbn [actor0 weights].
  - split; [exact Hw|]. split; reflexivity.
  - split; [exact Hw|]. split; [exact Hp|].
    destruct e; auto. now contradiction Hne.
Qed.

(** A rollout never changes the parameters of the module, whether it
    returns or raises. *)
Theorem batch_rollout_keeps_weights (w w' : World R E G)
    (res : result (RolloutOutput R)) :
  batch_rollout envs_api draw w = (res, w') ->
  weights (actor0 w') = weights (actor0 w).
Proof. intros Hb. exact (proj1 (batch_rollout_state w w' res Hb)). Qed.


(** An environment that hands over an empty batch of observations makes
    the rollout fail in the first call of [forward], by the runtime error
    of [min] on an empty tensor and not by an assertion. *)
Theorem batch_rollout_empty_batch (w : World R E G) (k : nat) :
  let st0 := fst (env_step envs_api (env_reset envs_api (envs w))
                    (repeat [0; 0] (env_n envs_api (envs w)))) in
  shape (obs0 st0) = [k; 3; 64; 64] -> data (obs0 st0) = [] ->
  exists w', batch_rollout envs_api draw w = (Raise RuntimeError, w').
Proof.
  intros st0 Hs Hd.
  unfold batch_rollout, bind, envs_n, on_actor, reset, envs_reset, envs_step,
    clear, ret.
  cbn [actor0 envs generator].
  destruct (env_step envs_api (env_reset envs_api (envs w))
              (repeat [0; 0] (env_n envs_api (envs w)))) as [st e1] eqn:Est.
  cbn [fst] in st0. subst st0.
  change horizon with (S 199). rewrite rollout_loop_S.
  unfold iteration, bind, on_actor. cbn [actor0 envs generator].
  rewrite forward_cases.
  rewrite (proj2 (shape_check_true (obs0 st)) (ex_intro _ k Hs)).
  unfold tmin, tmax. rewrite Hd. cbn [fold1].
  eexists. reflexivity.
Qed.

End RolloutOutcomes.

Lemma batch_rollout_keeps_weights_witness :
  exists res w',
    batch_rollout demo_env demo_draw demo_world = (res, w') /\
    weights (actor0 w') = zero_weights.
Proof.
  destruct (batch_rollout demo_env demo_draw demo_world) as [res w'] eqn:Hb.
  exists res, w'. split; [reflexivity|].
  exact (batch_rollout_keeps_weights _ _ demo_env demo_draw _ _ _ Hb).
Defined.


Lemma batch_rollout_empty_batch_witness :
  exists w', batch_rollout empty_env demo_draw empty_world = (Raise RuntimeError, w').
Proof.
  exact (batch_rollout_empty_batch _ _ empty_env demo_draw empty_world 0
           eq_refl eq_refl).
Defined.

(** ** The horizon and the actions *)

Lemma all_equal_repeat {X : Type} (a : X) (l : list X) :
  (forall x, In x l -> x = a) -> l = repeat a (length l).
Proof.
  induction l as [|x l IH]; intros Hall; [reflexivity|].
  cbn [length repeat]. rewrite (Hall x (or_introl eq_refl)). f_equal.
  apply IH. intros y Hy. apply Hall. now right.
Qed.

Section RolloutHorizon.

Variables E G : Type.
Variable envs_api : Env R E.
Variable draw : G -> list R -> nat * G.

(** When no environment ever reports termination, the rollout runs to the
    fixed horizon: it returns exactly 200 steps and every flag of [ends] is
    down. *)
Theorem batch_rollout_full_horizon (w : World R E G) :
  let n := env_n envs_api (envs w) in
  1 <= n -> env_valid envs_api n -> env_contract envs_api n ->
  (forall st, stepped envs_api st -> existsb (fun d => d) (dones st) = false) ->
  exists out w',
    batch_rollout envs_api draw w = (Ok out, w') /\
    shape (observations out) = [n; 200; 3; 64; 64] /\
    ends out = repeat (repeat false 200) n.
Proof.
  intros n Hn Hvalid Hcontract Hnever.
  assert (Hlock : env_lockstep envs_api).
  { intros st Hst Hany. rewrite (Hnever st Hst) in Hany. discriminate. }
  destruct (batch_rollout_returns E G envs_api draw w Hn Hvalid Hlock)
    as [out [w' Hb]].
  exists out, w'. split; [exact Hb|].
  destruct (batch_rollout_inv _ _ _ _ _ _ _ Hb) as [j [s [Hseg [-> _]]]].
  fold n in Hseg.
  destruct Hseg as [Hj Hc Ho _ _ _ _ _ _ En Run Stop].
  destruct Hc as [C1 [_ [_ [_ [_ [_ [_ C8]]]]]]].
  assert (Hne : all_ends s <> []).
  { intros Hnil. rewrite Hnil in C8. cbn in C8. unfold horizon in Hj. lia. }
  pose proof (last_In (all_ends s) [] Hne) as Hin.
  pose proof En as En'. rewrite Forall_forall in En'.
  destruct (En' _ Hin) as [st [Hst Hcol]].
  destruct (Hcontract st Hst) as [_ [Hlen _]].
  assert (Hj200 : j = 200).
  { destruct (Nat.eq_dec j 200) as [Heq|Hneq]; [exact Heq|].
    assert (Hlt : j < horizon) by (unfold horizon in *; lia).
    specialize (Stop Hlt). rewrite Hcol in Stop.
    destruct (dones st) as [|d ds] eqn:Ed; [cbn in Hlen; lia|].
    pose proof (Hnever st Hst) as Hf. rewrite Ed in Hf.
    cbn [existsb] in Hf. apply orb_false_iff in Hf. destruct Hf as [Hd _].
    inversion Stop as [|? ? Hrow _]; subst. inversion Hrow. }
  rewrite Hj200 in C1, C8. split.
  - cbn [observations rollout_output mul255_byte shape].
    rewrite (stack_dim1_shape n [3; 64; 64]).
    + now rewrite C1.
    + intros Hnil. rewrite Hnil in C1. cbn in C1. lia.
    + eapply Forall_impl; [|exact Ho]. intros t [Ht _]. exact Ht.
  - cbn [ends rollout_output].
    assert (Hrows : length (cat_dim1 (all_ends s)) = n).
    { apply cat_dim1_length; [exact Hne|].
      eapply Forall_impl; [|exact En]. intros col [st' [Hst' ->]].
      destruct (Hcontract st' Hst') as [_ [Hd _]].
      unfold column. now rewrite length_map. }
    rewrite <- Hrows. apply all_equal_repeat.
    intros row Hrow. apply cat_dim1_row in Hrow.
    destruct Hrow as [picks [Hp ->]].
    destruct (picks_of_flags _ _ Hp Hne Run) as [p [Hlast ->]].
    rewrite Hcol in Hlast. apply in_map_iff in Hlast.
    destruct Hlast as [d [<- Hd]].
    assert (d = false).
    { destruct d; [|reflexivity].
      assert (existsb (fun d => d) (dones st) = true)
        by (apply existsb_exists; eauto).
      rewrite (Hnever st Hst) in *. discriminate. }
    subst d. rewrite C8. reflexivity.
Qed.

Lemma sample_below7 (n : nat) (logits : list (matrix R)) (w w' : World R E G)
    (a : matrix nat) :
  draw_in_range draw -> shape3 n 1 7 logits ->
  sample draw logits w = (Ok a, w') -> below7 a.
Proof.
  intros Hdraw Hl. unfold sample.
  destruct (draws (fun g row => draws draw row g) logits (generator w))
    as [a' g] eqn:Ed.
  intros Hs. inversion Hs; subst a'.
  assert (Ha : a = fst (draws (fun g row => draws draw row g) logits (generator w)))
    by now rewrite Ed.
  apply Forall_forall. intros r Hr. rewrite Ha in Hr.
  apply (draws_In G draw (fun g row => draws draw row g)) in Hr.
  destruct Hr as [row [g' [Hrow ->]]].
  apply Forall_forall. intros x Hx.
  apply (draws_In G draw draw) in Hx. destruct Hx as [l [g'' [Hlin ->]]].
  pose proof (shape3_entry Hl Hrow) as [_ Hk]. rewrite Forall_forall in Hk.
  specialize (Hk l Hlin). rewrite <- Hk. apply Hdraw.
  intros Hnil. rewrite Hnil in Hk. discriminate.
Qed.

Lemma iteration_below7 (n : nat) (obss0 : Tensor R) (w w1 : World R E G)
    (out : ActorCriticOutput R) (a0 a1 : matrix nat) (st : StepResult R) :
  draw_in_range draw ->
  iteration envs_api draw obss0 w = (Ok (out, a0, a1, st), w1) ->
  present n (actor0 w) -> below7 a0 /\ below7 a1.
Proof.
  intros Hdraw Hi Hp. unfold iteration, bind, on_actor, ret in Hi.
  destruct (forward obss0 (actor0 w)) as [[o|e] m'] eqn:Ef; [|discriminate].
  destruct (forward_inv _ _ n _ _ Ef Hp) as [_ [_ [H0 [H1 _]]]].
  destruct (sample draw (logits_actions0 o) _) as [[b0|e] w2] eqn:E0;
    [|discriminate].
  destruct (sample draw (logits_actions1 o) w2) as [[b1|e] w3] eqn:E1;
    [|discriminate].
  unfold envs_step in Hi. destruct (env_step envs_api _ _) as [st' e'].
  inversion Hi; subst.
  split; [exact (sample_below7 n _ _ _ _ Hdraw H0 E0)
         |exact (sample_below7 n _ _ _ _ Hdraw H1 E1)].
Qed.

Lemma rollout_loop_below7 (n steps : nat) :
  draw_in_range draw ->
  forall (obss0 : Tensor R) (r r' : Records R) (w w' : World R E G),
  rollout_loop envs_api draw steps obss0 r w = (Ok r', w') ->
  present n (actor0 w) ->
  Forall below7 (all_actions0 r) /\ Forall below7 (all_actions1 r) ->
  Forall below7 (all_actions0 r') /\ Forall below7 (all_actions1 r').
Proof.
  intros Hdraw.
  induction steps as [|k IH]; intros obss0 r r' w w' Hloop Hp [P0 P1].
  - cbn in Hloop. inversion Hloop; subst. auto.
  - rewrite rollout_loop_S in Hloop.
    destruct (iteration envs_api draw obss0 w) as [[[[[out a0] a1] st]|e] w1] eqn:Ei;
      [|discriminate].
    destruct (iteration_below7 n _ _ _ _ _ _ _ Hdraw Ei Hp) as [B0 B1].
    destruct (iteration_inv _ _ _ _ n _ _ _ _ _ _ _ Ei Hp)
      as [_ [_ [_ [_ [_ [_ [_ [_ Hp1]]]]]]]].
    assert (Q : Forall below7
                  (all_actions0 (append_records r (step_records obss0 out a0 a1 st))) /\
                Forall below7
                  (all_actions1 (append_records r (step_records obss0 out a0 a1 st)))).
    { cbn [all_actions0 all_actions1 append_records step_records].
      split; apply Forall_app; split; auto. }
    cbv zeta in Hloop.
    destruct (existsb (fun d => d) (dones st)).
    + destruct (forallb (fun d => d) (dones st)); [|discriminate].
      inversion Hloop; subst. exact Q.
    + exact (IH _ _ _ _ _ Hloop Hp1 Q).
Qed.

Lemma cat_dim1_below7 (ts : list (matrix nat)) :
  Forall below7 ts -> below7 (cat_dim1 ts).
Proof.
  intros Hts. apply Forall_forall. intros row Hrow.
  apply cat_dim1_row in Hrow. destruct Hrow as [picks [Hp ->]].
  apply Forall_concat.
  induction Hp as [|p t picks ts Hpt _ IH]; [constructor|].
  inversion Hts as [|? ? Ht Hts']; subst.
  constructor; [|exact (IH Hts')].
  unfold below7 in Ht. rewrite Forall_forall in Ht. auto.
Qed.

(** With a sampler that draws an index of the logits it is given, every
    action recorded by a rollout, for either head, is one of the seven
    indices 0 to 6. *)
Theorem rollout_actions_in_range (w w' : World R E G) (out : RolloutOutput R) :
  draw_in_range draw ->
  batch_rollout envs_api draw w = (Ok out, w') ->
  Forall (Forall (fun a => a < 7)) (actions0 out) /\
  Forall (Forall (fun a => a < 7)) (actions1 out).
Proof.
  intros Hdraw.
  unfold batch_rollout, bind, envs_n, on_actor, reset, envs_reset, envs_step,
    clear, ret.
  cbn [actor0 envs generator].
  destruct (env_step envs_api (env_reset envs_api (envs w))
              (repeat [0; 0] (env_n envs_api (envs w)))) as [st e1].
  match goal with
  | |- context [rollout_loop ?a ?d ?s ?o ?r ?x] =>
    destruct (rollout_loop a d s o r x) as [[r'|e] w1] eqn:El
  end; [|discriminate].
  intros Hout. inversion Hout; subst. clear Hout.
  apply (rollout_loop_below7 (env_n envs_api (envs w)) _ Hdraw) in El.
  - destruct El as [P0 P1]. cbn [actions0 actions1 rollout_output].
    split; apply cat_dim1_below7; assumption.
  - cbn [actor0].
    exists (zeros (env_n envs_api (envs w)) lstm_dim),
           (zeros (env_n envs_api (envs w)) lstm_dim).
    split; [reflexivity|]. split; [reflexivity|]. split; apply zeros_shape.
  - split; constructor.
Qed.

End RolloutHorizon.

Lemma endless_env_never (st : StepResult R) :
  stepped endless_env st -> existsb (fun d => d) (dones st) = false.
Proof.
  intros Hst. destruct (scripted_stepped _ st Hst) as [_ [_ [e ->]]].
  reflexivity.
Qed.

Lemma endless_env_contract : env_contract endless_env 4.
Proof.
  intros st Hst. destruct (scripted_stepped _ st Hst) as [Ho [Hr [e Hd]]].
  split; [exact Hr|]. split; [now rewrite Hd|].
  rewrite Ho. apply flat_obs_wf.
Qed.

Lemma batch_rollout_full_horizon_witness :
  exists out w',
    batch_rollout endless_env demo_draw demo_world = (Ok out, w') /\
    shape (observations out) = [4; 200; 3; 64; 64] /\
    ends out = repeat (repeat false 200) 4.
Proof.
  apply (batch_rollout_full_horizon nat unit endless_env demo_draw demo_world).
  - cbn. lia.
  - apply scripted_env_valid.
  - exact endless_env_contract.
  - exact endless_env_never.
Defined.

Lemma demo_draw_in_range : draw_in_range demo_draw.
Proof.
  intros g l Hne. destruct l; [contradiction|]. cbn. lia.
Qed.

Lemma rollout_actions_in_range_witness :
  exists out w',
    batch_rollout demo_env demo_draw demo_world = (Ok out, w') /\
    Forall (Forall (fun a => a < 7)) (actions0 out) /\
    Forall (Forall (fun a => a < 7)) (actions1 out).
Proof.
  destruct demo_rollout_returns as [out [w' Hb]].
  exists out, w'. split; [exact Hb|].
  exact (rollout_actions_in_range _ _ demo_env demo_draw _ _ _
           demo_draw_in_range Hb).
Defined.

(** ** The gradient of the value loss *)

Section ValueGradient.

Open Scope R_scope.

Variable clr :
  matrix Dual -> matrix Dual -> matrix bool -> Dual -> Dual -> matrix Dual.

Lemma dual_sum_list (l : list Dual) :
  primal (sum_list l) = sum_list (map primal l) /\
  tangent (sum_list l) = sum_list (map tangent l).
Proof.
  induction l as [|a l [IHp IHt]]; [split; reflexivity|].
  cbn [map]. rewrite !sum_list_cons.
  change (sum_list (a :: l)) with (sadd a (sum_list l)).
  unfold primal, tangent in *. cbn [sadd Dual_Scalar fst snd].
  rewrite IHp, IHt. split; reflexivity.
Qed.

Lemma dual_mean (l : list Dual) :
  l <> [] ->
  exists x,
    mean l = Fin x /\
    primal x = sum_list (map primal l) / INR (length l) /\
    tangent x = sum_list (map tangent l) / INR (length l).
Proof.
  intros Hne. destruct l as [|a l]; [contradiction|].
  eexists. split; [reflexivity|].
  destruct (dual_sum_list (a :: l)) as [Hp Ht].
  assert (Hn : 0 < INR (length (a :: l))) by (apply lt_0_INR; cbn; lia).
  unfold primal, tangent in *. cbn [sdiv of_nat Dual_Scalar fst snd].
  rewrite Hp, Ht. split; [reflexivity|]. field. lra.
Qed.

Lemma over_steps_map {X Y : Type} (g : X -> Y) (B T : nat) (f : nat -> nat -> X) :
  map g (over_steps B T f) = over_steps B T (fun b t => g (f b t)).
Proof.
  rewrite <- !concat_tab, concat_map, map_tab. reflexivity.
Qed.

Lemma at2_constant (m : matrix Dual) (b t : nat) :
  constant_matrix m -> constant (at2 m szero b t).
Proof.
  intros Hm. unfold at2.
  destruct (nth_in_or_default t (nth b m []) szero) as [Hin | ->];
    [|reflexivity].
  destruct (nth_in_or_default b m []) as [Hrow | Hnil];
    [|rewrite Hnil in Hin; destruct Hin].
  unfold constant_matrix in Hm. rewrite Forall_forall in Hm.
  specialize (Hm _ Hrow). rewrite Forall_forall in Hm. auto.
Qed.


End ValueGradient.

Section ValueGradientWitness.

Open Scope R_scope.

Lemma dual_rollout_wf (dv : R) : wf_rollout 1 2 (dual_rollout dv).
Proof.
  unfold wf_rollout, dual_rollout, shape2, shape3, dual_logits. cbn.
  repeat split; repeat constructor.
Qed.


End ValueGradientWitness.

(** ** The gradient of the action losses *)

Section PolicyGradient.

Open Scope R_scope.

Variable clr :
  matrix Dual -> matrix Dual -> matrix bool -> Dual -> Dual -> matrix Dual.

Lemma dual_logsumexp (l : list Dual) :
  tangent (logsumexp l) =
  sum_list (map (fun v => exp (primal v) * tangent v) l) /
  sum_list (map (fun v => exp (primal v)) l).
Proof.
  unfold logsumexp.
  destruct (dual_sum_list (map sexp l)) as [Hp Ht].
  unfold tangent, primal in *. cbn [sln Dual_Scalar snd].
  rewrite Hp, Ht, !map_map. reflexivity.
Qed.

Lemma dual_log_prob (l : list Dual) (a : nat) :
  (a < length l)%nat ->
  tangent (log_prob (Categorical l) a) = log_prob_derivative l a.
Proof.
  intros Ha. unfold log_prob, Categorical, log_prob_derivative.
  rewrite (nth_indep _ szero (ssub szero (logsumexp l)))
    by (rewrite length_map; exact Ha).
  rewrite (map_nth (fun v => ssub v (logsumexp l))).
  rewrite <- dual_logsumexp.
  unfold tangent. reflexivity.
Qed.


End PolicyGradient.

Section PolicyGradientWitness.

Open Scope R_scope.


End PolicyGradientWitness.
